(** * Crypto.PublicKey.ECC: the P-256 point arithmetic and the raw ECDSA
      primitives of [lib/Crypto/PublicKey/ECC.py], as a shallow embedding.

    Python integers ([Crypto.Math.Numbers.Integer]) are [Z]; exceptions are
    an explicit [result] type; the two [while] loops carry a fuel argument
    that is computed from the loop variant and is shown never to run out;
    the lazily created [_precomp] attribute of a point and the module-level
    [_curve.G] object are threaded as explicit state. *)

From Stdlib Require Import ZArith Zcong Zdivisibility Znumtheory List String Bool Lia.
From Stdlib Require Import Zmod.
From Bignums Require Import BigZ.
Import ListNotations.
#[local] Open Scope Z_scope.

(** ** Exceptions and results *)

Inductive exn : Type :=
| ValueError (msg : string)
| TypeError
| AttributeError
| IndexError
| AssertionError.

Inductive result (A : Type) : Type :=
| Ok (a : A)
| Raise (e : exn)
| OutOfFuel.
Arguments Ok {A} a.
Arguments Raise {A} e.
Arguments OutOfFuel {A}.

Definition bind {A B : Type} (c : result A) (f : A -> result B) : result B :=
  match c with
  | Ok a => f a
  | Raise e => Raise e
  | OutOfFuel => OutOfFuel
  end.

Declare Scope result_scope.
Delimit Scope result_scope with result.
Notation "x <- c ;; k" := (bind c (fun x => k))
  (at level 61, c at next level, right associativity) : result_scope.
#[local] Open Scope result_scope.

Definition of_loop {A : Type} (o : option A) : result A :=
  match o with
  | Some a => Ok a
  | None => OutOfFuel
  end.

(** ** The big-integer collaborator *)

(** Modelled from the spec: [Integer.inverse] of [Crypto.Math.Numbers], which
    is not part of the sources at hand.  The spec lists it as
    "modular inverse ([inverse(modulus)], fails if not invertible)". *)
Definition inverse (a modulus : Z) : result Z :=
  if Z.gcd a modulus =? 1
  then Ok (Z.invmod a modulus)
  else Raise (ValueError "No inverse value can be computed").

(** ** Curve parameters: the [_curve] singleton *)

Module _curve.
Definition p : Z :=
  115792089210356248762697446949407573530086143415290314195533631308867097853951.
Definition order : Z :=
  115792089210356248762697446949407573529996955224135760342422259061068512044369.
Definition Gx : Z :=
  0x6b17d1f2e12c4247f8bce6e563a440f277037d812deb33a0f4a13945d898c296.
Definition Gy : Z :=
  0x4fe342e2fe1a7f9b8ee7eb4a7c0f9e162bce33576b315ececbb6406837bf51f5.
End _curve.

(** Modelled from the spec: the coefficient [b] of the short-Weierstrass
    equation [y^2 = x^3 - 3x + b].  The source never names it (the group law
    only uses the coefficient [-3]); the spec's data model refers to it as
    "the curve's [b]", and for P-256 it is the constant below. *)
Definition curve_b : Z :=
  0x5ac635d8aa3a93e7b3ebbd55769886bc651d06b0cc53b0f63bce3c3e27d2604b.

(** ** Points *)

(** An [EccPoint] instance: the two coordinate attributes set by [__init__]
    and the optional [_precomp] attribute that [multiply] creates.  The table
    holds Python objects: the integer [0] at the even indices and points at
    the odd ones. *)
Inductive EccPoint : Type :=
| EccPoint_obj (x y : Z) (precomp : option (list pyobj))
with pyobj : Type :=
| PyInt (n : Z)
| PyPoint (pt : EccPoint).

Definition _x (self : EccPoint) : Z := match self with EccPoint_obj x _ _ => x end.
Definition _y (self : EccPoint) : Z := match self with EccPoint_obj _ y _ => y end.
Definition _precomp (self : EccPoint) : option (list pyobj) :=
  match self with EccPoint_obj _ _ t => t end.

(** [EccPoint(x, y)]: a fresh instance, without [_precomp]. *)
Definition EccPoint_init (x y : Z) : EccPoint := EccPoint_obj x y None.

(** [self._precomp = precomp] *)
Definition set_precomp (self : EccPoint) (t : list pyobj) : EccPoint :=
  EccPoint_obj (_x self) (_y self) (Some t).

Definition __eq__ (self point : EccPoint) : bool :=
  (_x self =? _x point) && (_y self =? _y point).

Definition is_point_at_infinity (self : EccPoint) : bool :=
  (_x self =? 0) && (_y self =? 0).

Definition point_at_infinity : EccPoint := EccPoint_init 0 0.

Definition __neg__ (self : EccPoint) : EccPoint :=
  if is_point_at_infinity self then point_at_infinity
  else EccPoint_init (_x self) (_curve.p - _y self).

Definition copy (self : EccPoint) : EccPoint := EccPoint_init (_x self) (_y self).

(** The [x] and [y] properties. *)
Definition x (self : EccPoint) : result Z :=
  if is_point_at_infinity self then Raise (ValueError "Point at infinity")
  else Ok (_x self).

Definition y (self : EccPoint) : result Z :=
  if is_point_at_infinity self then Raise (ValueError "Point at infinity")
  else Ok (_y self).

(** [while x3 < 0: x3 += _curve.p] *)
Fixpoint while_negative_add_p (fuel : nat) (x3 : Z) : option Z :=
  if x3 <? 0 then
    match fuel with
    | O => None
    | S fuel' => while_negative_add_p fuel' (x3 + _curve.p)
    end
  else Some x3.

(** The variant of that loop: [-x3] shrinks by [p] at every turn. *)
Definition negative_fuel (x3 : Z) : nat := Z.to_nat ((- x3) / _curve.p + 1).

Definition double (self : EccPoint) : result EccPoint :=
  if _y self =? 0 then Ok point_at_infinity
  else
    let common := (_x self) ^ 2 mod _curve.p in
    let common := common * 3 in
    let common := common - 3 in
    i <- inverse (Z.shiftl (_y self) 1) _curve.p ;;
    let common := common * i in
    let common := common mod _curve.p in
    let x3 := common ^ 2 mod _curve.p in
    let x3 := x3 - _x self in
    let x3 := x3 - _x self in
    x3 <- of_loop (while_negative_add_p (negative_fuel x3) x3) ;;
    let y3 := _x self - x3 in
    let y3 := y3 * common in
    let y3 := y3 - _y self in
    let y3 := y3 mod _curve.p in
    Ok (EccPoint_init x3 y3).

Definition add (self point : EccPoint) : result EccPoint :=
  if is_point_at_infinity self then Ok (copy point)
  else if is_point_at_infinity point then Ok (copy self)
  else if __eq__ self point then double self
  else if _x self =? _x point then Ok point_at_infinity
  else
    let common := _y point - _y self in
    i <- inverse (_x point - _x self) _curve.p ;;
    let common := common * i in
    let common := common mod _curve.p in
    let x3 := common ^ 2 mod _curve.p in
    let x3 := x3 - _x self in
    let x3 := x3 - _x point in
    x3 <- of_loop (while_negative_add_p (negative_fuel x3) x3) ;;
    let y3 := _x self - x3 in
    let y3 := y3 * common in
    let y3 := y3 - _y self in
    let y3 := y3 mod _curve.p in
    Ok (EccPoint_init x3 y3).

(** *** Scalar multiplication *)

Definition WINDOW_BITS : Z := 4.
Definition window_high : Z := Z.shiftl 1 WINDOW_BITS.
Definition window_low : Z := Z.shiftl 1 (WINDOW_BITS - 1).
Definition window_mask : Z := window_high - 1.

(** The recoding loop [while scalar_int > 0: ...]; [naf] grows by [append]. *)
Fixpoint naf_loop (fuel : nat) (scalar_int : Z) (naf : list Z) : option (list Z) :=
  if scalar_int >? 0 then
    match fuel with
    | O => None
    | S fuel' =>
        let '(di, scalar_int) :=
          if negb (Z.land scalar_int 1 =? 0) then
            let di := Z.land scalar_int window_mask in
            let di := if di >=? window_low then di - window_high else di in
            (di, scalar_int - di)
          else (0, scalar_int) in
        naf_loop fuel' (Z.shiftr scalar_int 1) (naf ++ [di])
    end
  else Some naf.

(** The variant of the recoding loop: one turn per bit, plus one for the
    carry of a negative digit. *)
Definition naf_fuel (scalar_int : Z) : nat := S (Z.to_nat (Z.log2_up scalar_int)).

(** Python's [l[i]] with a possibly negative index. *)
Definition py_index {A : Type} (l : list A) (i : Z) : result A :=
  let n := Z.of_nat (List.length l) in
  let j := if i <? 0 then i + n else i in
  if (0 <=? j) && (j <? n) then
    match nth_error l (Z.to_nat j) with
    | Some a => Ok a
    | None => Raise IndexError
    end
  else Raise IndexError.

(** Unary minus on a table entry: integer negation or [EccPoint.__neg__]. *)
Definition py_neg (o : pyobj) : pyobj :=
  match o with
  | PyInt n => PyInt (- n)
  | PyPoint pt => PyPoint (__neg__ pt)
  end.

(** [p.add(o)] where the receiver [p] comes out of the table. *)
Definition py_add (o1 o2 : pyobj) : result EccPoint :=
  match o1, o2 with
  | PyPoint p1, PyPoint p2 => add p1 p2
  | _, _ => Raise AttributeError
  end.

(** The [else] branch of [if hasattr(self, "_precomp")]. *)
Definition build_precomp (self : EccPoint) : result (list pyobj) :=
  d <- double self ;;
  let precomp := [PyInt 0; PyPoint self; PyPoint d] in
  p2 <- py_index precomp 2 ;; p1 <- py_index precomp 1 ;;
  p3 <- py_add p2 p1 ;;
  let precomp := precomp ++ [PyPoint p3] in
  let precomp := precomp ++ [PyInt 0] in
  p2 <- py_index precomp 2 ;; p3' <- py_index precomp 3 ;;
  p5 <- py_add p2 p3' ;;
  let precomp := precomp ++ [PyPoint p5] in
  let precomp := precomp ++ [PyInt 0] in
  p2 <- py_index precomp 2 ;; p5' <- py_index precomp 5 ;;
  p7 <- py_add p2 p5' ;;
  let precomp := precomp ++ [PyPoint p7] in
  (* precomp[:0:-1] is the table without its first entry, last entry first *)
  let precomp := precomp ++ map py_neg (rev (tl precomp)) in
  Ok precomp.

(** [for x in naf: result = result.double(); if x != 0: ...] *)
Fixpoint multiply_loop (precomp : list pyobj) (naf : list Z) (result0 : EccPoint)
  : result EccPoint :=
  match naf with
  | [] => Ok result0
  | x :: naf' =>
      r <- double result0 ;;
      r <- (if negb (x =? 0)
            then (e <- py_index precomp x ;; py_add (PyPoint r) e)
            else Ok r) ;;
      multiply_loop precomp naf' r
  end.

(** [self.multiply(scalar)]: the outcome of the call and [self] after it. *)
Definition multiply (self : EccPoint) (scalar : Z) : result EccPoint * EccPoint :=
  if scalar <? 0 then
    (Raise (ValueError "Scalar multiplication only defined for non-negative integers"),
     self)
  else if (scalar =? 0) || is_point_at_infinity self then (Ok point_at_infinity, self)
  else if scalar =? 1 then (Ok (copy self), self)
  else
    match naf_loop (naf_fuel scalar) scalar [] with
    | None => (OutOfFuel, self)
    | Some naf =>
        let naf := rev naf in
        match _precomp self with
        | Some precomp => (multiply_loop precomp naf point_at_infinity, self)
        | None =>
            match build_precomp self with
            | Ok precomp =>
                (multiply_loop precomp naf point_at_infinity, set_precomp self precomp)
            | Raise e => (Raise e, self)
            | OutOfFuel => (OutOfFuel, self)
            end
        end
    end.


(** [_curve.G = EccPoint(_curve.Gx, _curve.Gy)], as the module creates it.
    The object lives as long as the module, so every function that calls
    [_curve.G.multiply] takes the current object and returns it after the
    call: the first call leaves the table in it. *)
Definition G : EccPoint := EccPoint_init _curve.Gx _curve.Gy.

(** ** Keys *)

Record EccKey : Type := mkEccKey {
  curve : option string;
  _d : option Z;
  _point : option EccPoint
}.

(** [EccKey(curve=..., d=..., point=...)]; an absent keyword is [None]. *)
Definition EccKey_init (curve : option string) (d : option Z) (point : option EccPoint)
  : result EccKey :=
  let self := mkEccKey curve d point in
  if negb (match curve with Some c => String.eqb c "P-256" | None => false end) then
    Raise (ValueError "Unsupported curve (%s)")
  else
    match d with
    | None =>
        match point with
        | None => Raise (ValueError "Either private or public ECC component must be specified")
        | Some _ => Ok self
        end
    | Some d =>
        if negb ((1 <=? d) && (d <? _curve.order))
        then Raise (ValueError "Invalid ECC private component")
        else Ok self
    end.

Definition has_private (self : EccKey) : bool :=
  match _d self with Some _ => true | None => false end.

(** The [d] property. *)
Definition d (self : EccKey) : result Z :=
  match _d self with
  | Some v => Ok v
  | None => Raise (ValueError "This is not a private ECC key")
  end.

Definition set_point (self : EccKey) (pt : EccPoint) : EccKey :=
  mkEccKey (curve self) (_d self) (Some pt).

(** The [pointQ] property: the point, the key and [_curve.G] after the
    access.  A key without [_d] and without [_point] does not come out of
    [EccKey_init]; there [multiply] is handed [None] and the comparison with
    [0] is a type error. *)
Definition pointQ (self : EccKey) (G : EccPoint)
  : result EccPoint * EccKey * EccPoint :=
  match _point self with
  | Some pt => (Ok pt, self, G)
  | None =>
      match _d self with
      | None => (Raise TypeError, self, G)
      | Some d =>
          let '(r, G) := multiply G d in
          match r with
          | Ok pt => (Ok pt, set_point self pt, G)
          | Raise e => (Raise e, self, G)
          | OutOfFuel => (OutOfFuel, self, G)
          end
      end
  end.

(** [self._d * r]: [None] has no product with an [Integer]. *)
Definition mul_d (d : option Z) (r : Z) : result Z :=
  match d with
  | Some d => Ok (d * r)
  | None => Raise TypeError
  end.

Definition _sign (self : EccKey) (z k : Z) (G : EccPoint)
  : result (Z * Z) * EccPoint :=
  if negb ((0 <? k) && (k <? _curve.order)) then (Raise AssertionError, G)
  else
    let '(pt, G) := multiply G k in
    (pt <- pt ;;
     xv <- x pt ;;
     let r := xv mod _curve.order in
     i <- inverse k _curve.order ;;
     dr <- mul_d (_d self) r ;;
     let s := i * (z + dr) mod _curve.order in
     Ok (r, s),
     G).

Definition _verify (self : EccKey) (z : Z) (rs : Z * Z) (G : EccPoint)
  : result bool * EccKey * EccPoint :=
  match inverse (snd rs) _curve.order with
  | Raise e => (Raise e, self, G)
  | OutOfFuel => (OutOfFuel, self, G)
  | Ok sinv =>
      let '(point1, G) := multiply G ((sinv * z) mod _curve.order) in
      match point1 with
      | Raise e => (Raise e, self, G)
      | OutOfFuel => (OutOfFuel, self, G)
      | Ok point1 =>
          let '(q, self, G) := pointQ self G in
          match q with
          | Raise e => (Raise e, self, G)
          | OutOfFuel => (OutOfFuel, self, G)
          | Ok q =>
              let '(point2, q) := multiply q ((sinv * fst rs) mod _curve.order) in
              let self := set_point self q in
              (point2 <- point2 ;;
               R <- add point1 point2 ;;
               xv <- x R ;;
               Ok (xv =? fst rs),
               self, G)
          end
      end
  end.

Definition public_key (self : EccKey) (G : EccPoint)
  : result EccKey * EccKey * EccPoint :=
  let '(q, self, G) := pointQ self G in
  (q <- q ;; EccKey_init (Some "P-256"%string) None (Some q), self, G).

(** ** The loops terminate within their fuel *)

Lemma p_pos : 0 < _curve.p.
Proof. reflexivity. Qed.

Lemma while_negative_add_p_nonneg (fuel : nat) (v : Z) :
  0 <= v -> while_negative_add_p fuel v = Some v.
Proof.
  intros Hv. destruct fuel; simpl;
    destruct (Z.ltb_spec v 0); try lia; reflexivity.
Qed.

Lemma while_negative_add_p_mod (fuel : nat) :
  forall v : Z, v < 0 -> (- v) / _curve.p + 1 <= Z.of_nat fuel ->
    while_negative_add_p fuel v = Some (v mod _curve.p).
Proof.
  pose proof p_pos as Hp.
  induction fuel as [|fuel IH]; intros v Hv Hf.
  - assert (0 <= (- v) / _curve.p) by (apply Z.div_pos; lia). lia.
  - simpl. destruct (Z.ltb_spec v 0); [|lia].
    destruct (Z_lt_le_dec (v + _curve.p) 0) as [Hneg|Hnn].
    + rewrite IH; trivial.
      * rewrite <- (Z.mod_add v 1 _curve.p) by lia. do 2 f_equal; lia.
      * replace (- (v + _curve.p)) with (- v + (-1) * _curve.p) by lia.
        rewrite Z.div_add by lia. lia.
    + rewrite while_negative_add_p_nonneg by lia.
      f_equal. apply Z.mod_unique with (q := -1); lia.
Qed.

(** The [while x3 < 0] loop always ends, and ends on the canonical residue
    when it had something to do. *)
Lemma while_negative_add_p_fuel (v : Z) :
  while_negative_add_p (negative_fuel v) v =
  Some (if v <? 0 then v mod _curve.p else v).
Proof.
  destruct (Z.ltb_spec v 0).
  - apply while_negative_add_p_mod; trivial.
    unfold negative_fuel.
    assert (0 <= (- v) / _curve.p) by (apply Z.div_pos; pose proof p_pos; lia).
    lia.
  - apply while_negative_add_p_nonneg; trivial.
Qed.

(** One turn of the recoding loop: the digit and the rest of the scalar. *)
Definition naf_digit (scalar_int : Z) : Z :=
  if negb (Z.land scalar_int 1 =? 0) then
    let di := Z.land scalar_int window_mask in
    if di >=? window_low then di - window_high else di
  else 0.

Lemma naf_loop_step (fuel : nat) (s : Z) (naf : list Z) :
  0 < s ->
  naf_loop (S fuel) s naf =
  naf_loop fuel (Z.shiftr (s - naf_digit s) 1) (naf ++ [naf_digit s]).
Proof.
  intros Hs. simpl. destruct (Z.gtb_spec s 0); [|lia].
  unfold naf_digit. destruct (negb (Z.land s 1 =? 0)); [reflexivity|].
  now rewrite Z.sub_0_r.
Qed.

Lemma land_1_mod (s : Z) : Z.land s 1 = s mod 2.
Proof. change 1 with (Z.ones 1). rewrite Z.land_ones by lia. reflexivity. Qed.

Lemma land_mask_mod (s : Z) : Z.land s window_mask = s mod 16.
Proof. change window_mask with (Z.ones 4). rewrite Z.land_ones by lia. reflexivity. Qed.

(** The digit is [0] for an even scalar and the centred residue modulo 16,
    an odd number of [-7 .. 7], for an odd one; what is left is even. *)
Lemma naf_digit_spec (s : Z) :
  (s mod 2 = 0 /\ naf_digit s = 0) \/
  (s mod 2 = 1 /\ (s - naf_digit s) mod 16 = 0 /\ -7 <= naf_digit s <= 7
   /\ naf_digit s mod 2 = 1).
Proof.
  unfold naf_digit. rewrite land_1_mod, land_mask_mod.
  change window_low with 8. change window_high with 16.
  pose proof (Z.mod_pos_bound s 2 ltac:(lia)).
  pose proof (Z.mod_pos_bound s 16 ltac:(lia)).
  assert (Hm : s mod 2 = (s mod 16) mod 2).
  { symmetry. apply Z.mod_mod_divide. exists 8; lia. }
  destruct (Z.eqb_spec (s mod 2) 0) as [E|E]; simpl; [left; lia|right].
  assert (Hs : s = 16 * (s / 16) + s mod 16) by (apply Z.div_mod; lia).
  destruct (Z.geb_spec (s mod 16) 8).
  - assert (s mod 16 <> 8) by (intro E8; rewrite E8 in Hm; change (8 mod 2) with 0 in Hm; lia).
    repeat split; try lia.
    + replace (s - (s mod 16 - 16)) with ((s / 16 + 1) * 16) by lia.
      apply Z.mod_mul; lia.
    + replace (s mod 16 - 16) with (s mod 16 + (-8) * 2) by lia.
      rewrite Z.mod_add by lia. lia.
  - repeat split; try lia.
    replace (s - s mod 16) with ((s / 16) * 16) by lia. apply Z.mod_mul; lia.
Qed.

Lemma naf_loop_terminates (n : nat) :
  forall (s : Z) (naf : list Z), s <= 2 ^ Z.of_nat n ->
    exists l, naf_loop (S n) s naf = Some l.
Proof.
  induction n as [|n IH]; intros s naf Hs.
  - destruct (Z_le_gt_dec s 0) as [H0|H0].
    + exists naf. simpl. destruct (Z.gtb_spec s 0); [lia|reflexivity].
    + assert (s = 1) by (simpl in Hs; lia). subst s. exists (naf ++ [1]). reflexivity.
  - destruct (Z_le_gt_dec s 0) as [H0|H0].
    + exists naf. simpl. destruct (Z.gtb_spec s 0); [lia|reflexivity].
    + rewrite naf_loop_step by lia. apply IH.
      rewrite Z.shiftr_div_pow2 by lia. change (2 ^ 1) with 2.
      assert (HN : 2 ^ Z.of_nat (S n) = 2 * 2 ^ Z.of_nat n)
        by (rewrite Nat2Z.inj_succ, Z.pow_succ_r; lia).
      apply Z.div_le_upper_bound; [lia|]. rewrite <- HN.
      destruct (naf_digit_spec s) as [[_ ->]|(Hodd & H16 & Hr & _)]; [lia|].
      destruct (Z_le_gt_dec 0 (naf_digit s)); [lia|].
      (* a negative digit rounds [s] up to the next multiple of 16 *)
      apply Z.mod_divide in H16; [|lia]. destruct H16 as [c Hc].
      destruct (Z_le_gt_dec 4 (Z.of_nat (S n))) as [Hn|Hn].
      * assert (H2n : 2 ^ Z.of_nat (S n) = 16 * 2 ^ (Z.of_nat (S n) - 4)).
        { change 16 with (2 ^ 4). rewrite <- Z.pow_add_r by lia. f_equal. lia. }
        lia.
      * assert (2 ^ Z.of_nat (S n) <= 2 ^ 3) by (apply Z.pow_le_mono_r; lia).
        change (2 ^ 3) with 8 in *. lia.
Qed.

(** The recoding loop never runs out of [naf_fuel]. *)
Lemma naf_loop_fuel (s : Z) : exists l, naf_loop (naf_fuel s) s [] = Some l.
Proof.
  unfold naf_fuel. apply naf_loop_terminates.
  destruct (Z_le_gt_dec s 1) as [H1|H1].
  - pose proof (Z.pow_pos_nonneg 2 (Z.of_nat (Z.to_nat (Z.log2_up s))) ltac:(lia) ltac:(lia)).
    lia.
  - rewrite Z2Nat.id by apply Z.log2_up_nonneg. apply Z.log2_up_spec. lia.
Qed.

(** ** Evaluation on machine words

    A scalar multiplication by a 256-bit number takes some three hundred
    modular inversions and a few thousand multiplications, too many to replay
    on the binary integers of [Z].  [Big] runs the same steps on [bigZ]; a
    modular inverse is taken from a hint, or from Fermat's little theorem
    when there is none, and is checked by one multiplication either way.
    Each function returns [None] when a check fails and logs the inverses it
    used, so that a first run yields the hints of the later ones. *)

(** A number that passes the check is the inverse [inverse] computes. *)
Lemma inverse_checked (i a modulus : Z) :
  1 < modulus -> 0 <= i < modulus -> (i * a) mod modulus = 1 ->
  inverse a modulus = Ok i.
Proof.
  intros Hm Hi He.
  assert (Hc : Z.coprime a modulus).
  { apply Z.coprime_Bezout. exists i, (- ((i * a) / modulus)).
    pose proof (Z.div_mod (i * a) modulus ltac:(lia)) as Hq. rewrite He in Hq.
    rewrite Z.mul_opp_l, Z.mul_comm with (n := i * a / modulus). lia. }
  unfold inverse. unfold Z.coprime in Hc. rewrite Hc. simpl. f_equal.
  pose proof (Z.invmod_coprime a modulus ltac:(lia) Hc) as Hv.
  pose proof (Z.mod_invmod modulus a) as Hr.
  pose proof (Z.mod_pos_bound (Z.invmod a modulus) modulus ltac:(lia)) as Hb.
  rewrite Hr in Hb.
  assert (Hd : ((Z.invmod a modulus - i) * a) mod modulus = 0).
  { rewrite Z.mul_sub_distr_r, Zminus_mod, He, Hv. rewrite Z.sub_diag. apply Z.mod_0_l. lia. }
  apply Z.cong_mul_cancel_r_coprime in Hd; trivial; [|lia].
  apply Z.mod_divide in Hd; [|lia]. destruct Hd as [c Hd].
  assert (c = 0); [|lia].
  destruct (Z_lt_le_dec c 1) as [U|U], (Z_lt_le_dec (-1) c) as [L|L]; try lia.
  - assert (c * modulus <= (-1) * modulus) by (apply Z.mul_le_mono_nonneg_r; lia). lia.
  - assert (1 * modulus <= c * modulus) by (apply Z.mul_le_mono_nonneg_r; lia). lia.
Qed.

Module Big.
#[local] Open Scope bigZ_scope.

Definition point : Type := bigZ * bigZ.

Definition to_point (b : point) : EccPoint :=
  EccPoint_init (BigZ.to_Z (fst b)) (BigZ.to_Z (snd b)).

Definition entry_obj (e : option point) : pyobj :=
  match e with
  | Some b => PyPoint (to_point b)
  | None => PyInt 0
  end.

Definition p : bigZ := BigZ.of_Z _curve.p.
Definition c0 : bigZ := BigZ.of_Z 0.
Definition c1 : bigZ := BigZ.of_Z 1.
Definition c2 : bigZ := BigZ.of_Z 2.
Definition c3 : bigZ := BigZ.of_Z 3.

Fixpoint powmod (a : bigZ) (e : positive) (m : bigZ) : bigZ :=
  match e with
  | xH => a mod m
  | xO e' => let r := powmod a e' m in (r * r) mod m
  | xI e' => let r := powmod a e' m in (((r * r) mod m) * a) mod m
  end.

Definition check (i a : bigZ) : bool :=
  (c0 <=? i) && (i <? p) && ((i * a) mod p =? c1).

Definition inverse (hint : Z) (a : bigZ) : option bigZ :=
  let h := BigZ.of_Z hint in
  if check h a then Some h
  else
    let i := powmod a (Z.to_pos (_curve.p - 2)) p in
    if check i a then Some i else None.

(** What [while x3 < 0: x3 += p] leaves in [x3]. *)
Definition reduce (v : bigZ) : bigZ := if v <? c0 then v mod p else v.

Definition is_infinity (b : point) : bool := (fst b =? c0) && (snd b =? c0).

Definition eq (b1 b2 : point) : bool := (fst b1 =? fst b2) && (snd b1 =? snd b2).

Definition neg (b : point) : point :=
  if is_infinity b then (c0, c0) else (fst b, p - snd b).

Definition double (hint : Z) (b : point) : option (point * Z) :=
  if snd b =? c0 then Some ((c0, c0), 0%Z)
  else
    match inverse hint (c2 * snd b) with
    | None => None
    | Some i =>
        let common := ((((fst b * fst b) mod p) * c3 - c3) * i) mod p in
        let x3 := reduce ((common * common) mod p - fst b - fst b) in
        let y3 := ((fst b - x3) * common - snd b) mod p in
        Some ((x3, y3), BigZ.to_Z i)
    end.

Definition add (hint : Z) (b1 b2 : point) : option (point * Z) :=
  if is_infinity b1 then Some (b2, 0%Z)
  else if is_infinity b2 then Some (b1, 0%Z)
  else if eq b1 b2 then double hint b1
  else if fst b1 =? fst b2 then Some ((c0, c0), 0%Z)
  else
    match inverse hint (fst b2 - fst b1) with
    | None => None
    | Some i =>
        let common := ((snd b2 - snd b1) * i) mod p in
        let x3 := reduce ((common * common) mod p - fst b1 - fst b2) in
        let y3 := ((fst b1 - x3) * common - snd b1) mod p in
        Some ((x3, y3), BigZ.to_Z i)
    end.

(** The table of [multiply]: [None] stands for the integer [0]. *)
Definition build_precomp (hints : Z * Z * Z * Z) (b : point)
  : option (list (option point) * (Z * Z * Z * Z)) :=
  let '(h2, h3, h5, h7) := hints in
  match double h2 b with
  | None => None
  | Some (d, i2) =>
  match add h3 d b with
  | None => None
  | Some (p3, i3) =>
  match add h5 d p3 with
  | None => None
  | Some (p5, i5) =>
  match add h7 d p5 with
  | None => None
  | Some (p7, i7) =>
      let t := [None; Some b; Some d; Some p3; None; Some p5; None; Some p7] in
      Some (t ++ map (option_map neg) (rev (tl t)), (i2, i3, i5, i7))
  end end end end.

(** A pair of hints for every digit: the doubling and the addition. *)
Fixpoint multiply_loop (hints : list (Z * Z)) (table : list (option point))
  (naf : list Z) (acc : point) : option (point * list (Z * Z)) :=
  match naf with
  | [] => Some (acc, [])
  | d :: naf' =>
      let '(hd, ha) := hd (0%Z, 0%Z) hints in
      match double hd acc with
      | None => None
      | Some (r, i1) =>
          match
            (if negb (d =? 0)%Z then
               match py_index table d with
               | Ok (Some e) => add ha r e
               | _ => None
               end
             else Some (r, 0%Z))
          with
          | None => None
          | Some (r', i2) =>
              match multiply_loop (tl hints) table naf' r' with
              | None => None
              | Some (res, log) => Some (res, (i1, i2) :: log)
              end
          end
      end
  end.

Definition hints : Type := (Z * Z * Z * Z) * list (Z * Z).
Definition no_hints : hints := ((0, 0, 0, 0)%Z, []).

(** The scalar product of [(x, y)] by [scalar], past the trivial cases and
    for a point without a table, with the log of the inverses. *)
Definition multiply (h : hints) (x y scalar : Z) : option ((Z * Z) * hints) :=
  match naf_loop (naf_fuel scalar) scalar [] with
  | None => None
  | Some naf =>
      match build_precomp (fst h) (BigZ.of_Z x, BigZ.of_Z y) with
      | None => None
      | Some (t, l4) =>
          match multiply_loop (snd h) t (rev naf) (c0, c0) with
          | None => None
          | Some (r, l) => Some ((BigZ.to_Z (fst r), BigZ.to_Z (snd r)), (l4, l))
          end
      end
  end.

Definition log_of (r : option ((Z * Z) * hints)) : hints :=
  match r with
  | Some (_, l) => l
  | None => no_hints
  end.

End Big.

Ltac big_to_Z :=
  unfold Big.c0, Big.c1, Big.c2, Big.c3, Big.p;
  repeat first
    [ rewrite BigZ.spec_modulo | rewrite BigZ.spec_mul | rewrite BigZ.spec_sub
    | rewrite BigZ.spec_add | rewrite BigZ.spec_ltb | rewrite BigZ.spec_leb
    | rewrite BigZ.spec_eqb | rewrite BigZ.spec_of_Z ].

Ltac big_to_Z_in H :=
  unfold Big.c0, Big.c1, Big.c2, Big.c3, Big.p in H;
  repeat first
    [ rewrite BigZ.spec_modulo in H | rewrite BigZ.spec_mul in H
    | rewrite BigZ.spec_sub in H | rewrite BigZ.spec_add in H
    | rewrite BigZ.spec_ltb in H | rewrite BigZ.spec_leb in H
    | rewrite BigZ.spec_eqb in H | rewrite BigZ.spec_of_Z in H ].

Lemma big_inverse_sound (hint : Z) (a i : bigZ) :
  Big.inverse hint a = Some i -> inverse (BigZ.to_Z a) _curve.p = Ok (BigZ.to_Z i).
Proof.
  assert (Hc : forall j, Big.check j a = true ->
                         inverse (BigZ.to_Z a) _curve.p = Ok (BigZ.to_Z j)).
  { intros j Hj. unfold Big.check in Hj. big_to_Z_in Hj.
    rewrite !andb_true_iff in Hj. destruct Hj as [[H0 H1] He].
    apply Z.leb_le in H0. apply Z.ltb_lt in H1. apply Z.eqb_eq in He.
    apply inverse_checked; [reflexivity|lia|exact He]. }
  unfold Big.inverse. destruct (Big.check (BigZ.of_Z hint) a) eqn:E1.
  - intros [= <-]. now apply Hc.
  - set (f := Big.powmod _ _ _). destruct (Big.check f a) eqn:E2; intros H.
    + injection H as <-. now apply Hc.
    + discriminate H.
Qed.

Lemma big_reduce_spec (v : bigZ) :
  BigZ.to_Z (Big.reduce v) =
  if BigZ.to_Z v <? 0 then BigZ.to_Z v mod _curve.p else BigZ.to_Z v.
Proof.
  unfold Big.reduce. big_to_Z. destruct (BigZ.to_Z v <? 0); big_to_Z; reflexivity.
Qed.

Lemma big_infinity : Big.to_point (Big.c0, Big.c0) = point_at_infinity.
Proof. reflexivity. Qed.

Lemma big_is_infinity (b : Big.point) :
  Big.is_infinity b = is_point_at_infinity (Big.to_point b).
Proof. unfold Big.is_infinity, is_point_at_infinity. big_to_Z. reflexivity. Qed.

Lemma big_eq (b1 b2 : Big.point) :
  Big.eq b1 b2 = __eq__ (Big.to_point b1) (Big.to_point b2).
Proof. unfold Big.eq, __eq__. big_to_Z. reflexivity. Qed.

Lemma big_neg (b : Big.point) : Big.to_point (Big.neg b) = __neg__ (Big.to_point b).
Proof.
  unfold Big.neg, __neg__. rewrite big_is_infinity.
  destruct (is_point_at_infinity (Big.to_point b)); [reflexivity|].
  unfold Big.to_point. cbn [fst snd _x _y EccPoint_init]. big_to_Z. reflexivity.
Qed.

Lemma big_double_sound (hint : Z) (b r : Big.point) (i : Z) :
  Big.double hint b = Some (r, i) -> double (Big.to_point b) = Ok (Big.to_point r).
Proof.
  destruct b as [bx by_]. unfold Big.double, double, Big.to_point.
  cbn [fst snd _x _y EccPoint_init]. big_to_Z.
  destruct (BigZ.to_Z by_ =? 0); [intros [= <- <-]; reflexivity|].
  destruct (Big.inverse hint _) as [j|] eqn:E; [|discriminate].
  apply big_inverse_sound in E. big_to_Z_in E.
  rewrite Z.shiftl_mul_pow2 by lia. change (2 ^ 1) with 2.
  rewrite (Z.mul_comm _ 2), E. cbn [bind].
  rewrite while_negative_add_p_fuel. cbn [of_loop bind].
  intros [= <- <-]. cbn [fst snd].
  rewrite big_reduce_spec. big_to_Z. rewrite big_reduce_spec. big_to_Z.
  rewrite !Z.pow_2_r. reflexivity.
Qed.

Lemma big_add_sound (hint : Z) (b1 b2 r : Big.point) (i : Z) :
  Big.add hint b1 b2 = Some (r, i) ->
  add (Big.to_point b1) (Big.to_point b2) = Ok (Big.to_point r).
Proof.
  unfold Big.add, add. rewrite <- !big_is_infinity, <- big_eq.
  destruct (Big.is_infinity b1); [intros [= <- <-]; reflexivity|].
  destruct (Big.is_infinity b2); [intros [= <- <-]; reflexivity|].
  destruct (Big.eq b1 b2); [apply big_double_sound|].
  destruct b1 as [x1 y1], b2 as [x2 y2]. unfold Big.to_point.
  cbn [fst snd _x _y EccPoint_init]. big_to_Z.
  destruct (BigZ.to_Z x1 =? BigZ.to_Z x2); [intros [= <- <-]; reflexivity|].
  destruct (Big.inverse hint _) as [j|] eqn:E; [|discriminate].
  apply big_inverse_sound in E. big_to_Z_in E. rewrite E. cbn [bind].
  rewrite while_negative_add_p_fuel. cbn [of_loop bind].
  intros [= <- <-]. cbn [fst snd].
  rewrite big_reduce_spec. big_to_Z. rewrite big_reduce_spec. big_to_Z.
  rewrite !Z.pow_2_r. reflexivity.
Qed.

(** The table, entry by entry: [0, 1P, 2P, 3P, 0, 5P, 0, 7P] followed by the
    negated entries from the last one down to [1P], so that Python's
    [precomp[-k]] is the opposite of [precomp[k]]. *)
Lemma build_precomp_eq (self : EccPoint) :
  build_precomp self =
  (d <- double self ;;
   p3 <- add d self ;;
   p5 <- add d p3 ;;
   p7 <- add d p5 ;;
   Ok [PyInt 0; PyPoint self; PyPoint d; PyPoint p3; PyInt 0; PyPoint p5;
       PyInt 0; PyPoint p7;
       PyPoint (__neg__ p7); PyInt 0; PyPoint (__neg__ p5); PyInt 0;
       PyPoint (__neg__ p3); PyPoint (__neg__ d); PyPoint (__neg__ self)]).
Proof. unfold build_precomp. destruct (double self); reflexivity. Qed.

Lemma big_build_precomp_sound hints (b : Big.point) t l :
  Big.build_precomp hints b = Some (t, l) ->
  build_precomp (Big.to_point b) = Ok (map Big.entry_obj t).
Proof.
  intros H. unfold Big.build_precomp in H. destruct hints as [[[h2 h3] h5] h7].
  destruct (Big.double h2 b) as [[d i2]|] eqn:E2; [|discriminate].
  destruct (Big.add h3 d b) as [[p3 i3]|] eqn:E3; [|discriminate].
  destruct (Big.add h5 d p3) as [[p5 i5]|] eqn:E5; [|discriminate].
  destruct (Big.add h7 d p5) as [[p7 i7]|] eqn:E7; [|discriminate].
  injection H as <- <-.
  apply big_double_sound in E2. apply big_add_sound in E3, E5, E7.
  rewrite build_precomp_eq, E2. cbn [bind]. rewrite E3. cbn [bind].
  rewrite E5. cbn [bind]. rewrite E7. cbn [bind].
  cbn [map app rev tl option_map Big.entry_obj]. now rewrite !big_neg.
Qed.

Lemma py_index_map {A B : Type} (f : A -> B) (l : list A) (i : Z) :
  py_index (map f l) i =
  match py_index l i with
  | Ok a => Ok (f a)
  | Raise e => Raise e
  | OutOfFuel => OutOfFuel
  end.
Proof.
  unfold py_index. rewrite length_map.
  destruct ((0 <=? _) && _); trivial.
  rewrite nth_error_map. destruct (nth_error l _); reflexivity.
Qed.

Lemma big_multiply_loop_sound (table : list (option Big.point)) (naf : list Z) :
  forall hints (acc r : Big.point) log,
    Big.multiply_loop hints table naf acc = Some (r, log) ->
    multiply_loop (map Big.entry_obj table) naf (Big.to_point acc) = Ok (Big.to_point r).
Proof.
  induction naf as [|d naf IH]; intros hints acc r log H.
  - injection H as <- _. reflexivity.
  - cbn [Big.multiply_loop multiply_loop] in *.
    destruct (hd (0, 0) hints) as [h1 h2].
    destruct (Big.double h1 acc) as [[r1 i1]|] eqn:E1; [|discriminate].
    apply big_double_sound in E1. rewrite E1. cbn [bind].
    destruct (negb (d =? 0)).
    + rewrite py_index_map.
      destruct (py_index table d) as [[e|]| |]; try discriminate. cbn [bind].
      destruct (Big.add h2 r1 e) as [[r2 i2]|] eqn:E2; [|discriminate].
      apply big_add_sound in E2. cbn [Big.entry_obj py_add]. rewrite E2. cbn [bind].
      destruct (Big.multiply_loop _ table naf r2) as [[res l]|] eqn:E3; [|discriminate].
      injection H as <- _. eapply IH; eassumption.
    + cbn [bind].
      destruct (Big.multiply_loop _ table naf r1) as [[res l]|] eqn:E3; [|discriminate].
      injection H as <- _. eapply IH; eassumption.
Qed.

(** What [Big.multiply] computes is what [multiply] returns, for a point
    that has no table yet. *)
Lemma big_multiply_sound h (px py scalar rx ry : Z) log :
  1 < scalar -> is_point_at_infinity (EccPoint_init px py) = false ->
  Big.multiply h px py scalar = Some ((rx, ry), log) ->
  fst (multiply (EccPoint_init px py) scalar) = Ok (EccPoint_init rx ry).
Proof.
  intros Hs Hinf H. unfold multiply, Big.multiply in *.
  destruct (Z.ltb_spec scalar 0); [lia|].
  destruct (Z.eqb_spec scalar 0); [lia|]. rewrite Hinf. cbn [orb].
  destruct (Z.eqb_spec scalar 1); [lia|].
  destruct (naf_loop (naf_fuel scalar) scalar []) as [naf|]; [|discriminate].
  destruct (Big.build_precomp _ _) as [[t l4]|] eqn:Et; [|discriminate].
  destruct (Big.multiply_loop _ t _ _) as [[r l]|] eqn:El; [|discriminate].
  injection H as <- <- _.
  apply big_build_precomp_sound in Et. apply big_multiply_loop_sound in El.
  unfold Big.to_point in Et at 1. cbn [fst snd] in Et. rewrite !BigZ.spec_of_Z in Et.
  cbn [_precomp EccPoint_init]. rewrite Et. cbn [fst]. exact El.
Qed.


(** ** The field modulus is prime

    [_curve.p] is certified prime by a chain of Pocklington certificates: a
    number [N] is prime when [N - 1] has a divisor [F], with [N < F * F],
    that is a product of powers of known primes [q], each with a witness [a]
    such that [a ^ (N - 1) = 1] modulo [N] and [a ^ ((N - 1) / q) - 1] is
    coprime to [N].  The smallest primes of the chain are checked by trial
    division. *)

(** *** Trial division *)
Fixpoint no_divisor_from (fuel : nat) (d n : Z) : bool :=
  match fuel with
  | O => true
  | S fuel' => negb (n mod d =? 0) && no_divisor_from fuel' (d + 1) n
  end.

Definition trial_prime (n : Z) : bool :=
  (1 <? n) && no_divisor_from (Z.to_nat (Z.sqrt n) - 1) 2 n.

Lemma no_divisor_from_spec (fuel : nat) :
  forall d n, no_divisor_from fuel d n = true ->
    forall c, d <= c < d + Z.of_nat fuel -> n mod c <> 0.
Proof.
  induction fuel as [|fuel IH]; intros d n H c Hc; [lia|].
  cbn [no_divisor_from] in H. apply andb_true_iff in H. destruct H as [H1 H2].
  destruct (Z.eq_dec c d) as [->|Hne].
  - apply negb_true_iff, Z.eqb_neq in H1. exact H1.
  - apply (IH (d + 1) n H2). lia.
Qed.

Lemma trial_prime_sound (n : Z) : trial_prime n = true -> Z.prime n.
Proof.
  unfold trial_prime. rewrite andb_true_iff. intros [Hn Hd]. apply Z.ltb_lt in Hn.
  split; [exact Hn|]. intros m Hm [k Hk].
  pose proof (Z.sqrt_spec n ltac:(lia)) as [Hs1 Hs2].
  pose proof (Z.sqrt_nonneg n) as Hs0.
  assert (Hsmall : forall c, 2 <= c <= Z.sqrt n -> n mod c <> 0).
  { intros c Hc. apply (no_divisor_from_spec _ _ _ Hd). lia. }
  assert (Hk1 : 1 < k < n) by nia.
  destruct (Z_le_gt_dec m (Z.sqrt n)) as [Hle|Hgt].
  - apply (Hsmall m); [lia|]. subst n. apply Z.mod_mul. lia.
  - destruct (Z_le_gt_dec k (Z.sqrt n)) as [Hle'|Hgt'].
    + apply (Hsmall k); [lia|]. subst n. rewrite Z.mul_comm. apply Z.mod_mul. lia.
    + assert ((Z.sqrt n + 1) * (Z.sqrt n + 1) <= k * m) by nia. nia.
Qed.

(** Every number above 1 has a prime divisor. *)
Lemma prime_divisor_exists (n : Z) : 1 < n -> exists r, Z.prime r /\ (r | n).
Proof.
  intros Hn. assert (H0 : 0 <= n) by lia. revert Hn. pattern n.
  apply Z_lt_induction; [|exact H0]. clear n H0. intros n IH Hn.
  destruct (prime_dec n) as [Hp|Hnp].
  - exists n. split; [now apply prime_alt|apply Z.divide_refl].
  - destruct (not_prime_divide n Hn Hnp) as (m & Hm & Hd).
    destruct (IH m ltac:(lia) ltac:(lia)) as (r & Hr & Hrm).
    exists r. split; trivial. now apply Z.divide_trans with m.
Qed.

(** A divisor of a prime power is the power itself or divides the one below. *)
Lemma divide_prime_power (q : Z) (e : nat) (g : Z) :
  Z.prime q -> 0 < g -> (g | q ^ Z.of_nat e) ->
  g = q ^ Z.of_nat e \/ (exists e', e = S e' /\ (g | q ^ Z.of_nat e')).
Proof.
  intros Hq. pose proof (Z.prime_ge_2 _ Hq) as Hq2. revert g.
  induction e as [|e IH]; intros g Hg Hd.
  - left. change (q ^ Z.of_nat 0) with 1 in *.
    apply Z.divide_1_r_nonneg in Hd; lia.
  - rewrite Nat2Z.inj_succ, Z.pow_succ_r in * by lia.
    destruct (Z.BoolSpec_divide q g) as [[g' Hg']|Hnd].
    + assert (Hd' : (g' | q ^ Z.of_nat e)).
      { destruct Hd as [c Hc]. exists c. subst g. nia. }
      destruct (IH g' ltac:(nia) Hd') as [->|(e' & -> & He')].
      * left. lia.
      * right. exists (S e'). split; trivial.
        rewrite Nat2Z.inj_succ, Z.pow_succ_r by lia. subst g.
        rewrite Z.mul_comm. now apply Z.mul_divide_mono_l.
    + right. exists e. split; trivial.
      apply Z.gauss with q; trivial.
      rewrite Z.gcd_comm. apply Z.coprime_prime_l; trivial.
Qed.

Section PocklingtonStep.
Variables (N r q : Z) (e : nat) (a : Z).
Hypothesis Hr : Z.prime r.
Hypothesis HrN : (r | N).
Hypothesis HN : 1 < N.
Hypothesis Hq : Z.prime q.
Hypothesis Hqe : (q ^ Z.of_nat e | N - 1).
Hypothesis Hfermat : a ^ (N - 1) mod N = 1.
Hypothesis Hgcd : Z.gcd (a ^ ((N - 1) / q) mod N - 1) N = 1.

Let x : Zmod r := Zmod.of_Z r a.

Lemma nonzero_coprime (z : Zmod r) : z <> Zmod.zero -> Z.gcd (Zmod.to_Z z) r = 1.
Proof.
  intros Hz. pose proof (Z.prime_ge_2 _ Hr).
  rewrite Z.gcd_comm. apply Z.coprime_prime_small; trivial.
  pose proof (Zmod.to_Z_range z). pose proof (Zmod.to_Z_nz z Hz). lia.
Qed.

Lemma pow_one_nonzero (z : Zmod r) (n : Z) :
  n <> 0 -> Zmod.pow z n = Zmod.one -> z <> Zmod.zero.
Proof.
  intros Hn Hz ->. rewrite Zmod.pow_0_l in Hz by trivial.
  pose proof (Z.prime_ge_2 _ Hr). symmetry in Hz.
  revert Hz. apply Zmod.one_neq_zero. lia.
Qed.

Lemma x_pow_N1 : Zmod.pow x (N - 1) = Zmod.one.
Proof.
  unfold x. rewrite <- Zmod.of_Z_pow by lia. rewrite <- Zmod.of_Z_1.
  apply Zmod.of_Z_inj. rewrite <- (Z.mod_mod_divide _ N r HrN), Hfermat.
  reflexivity.
Qed.

Lemma pow_gcd_one (z : Zmod r) (m n : Z) :
  z <> Zmod.zero -> Zmod.pow z m = Zmod.one -> Zmod.pow z n = Zmod.one ->
  Zmod.pow z (Z.gcd m n) = Zmod.one.
Proof.
  intros Hz Hm Hn. pose proof (nonzero_coprime z Hz) as Hc.
  destruct (Z.gcd_bezout m n _ eq_refl) as (u & v & <-).
  rewrite Zmod.pow_add_r_coprime by trivial.
  rewrite (Z.mul_comm u), (Z.mul_comm v), !Zmod.pow_mul_r_coprime by trivial.
  rewrite Hm, Hn, !Zmod.pow_1_l. apply Zmod.mul_1_l.
Qed.

(** Every prime divisor of [N] is 1 modulo the prime power [q ^ e]. *)
Lemma pocklington_step : (q ^ Z.of_nat e | r - 1).
Proof.
  pose proof (Z.prime_ge_2 _ Hr) as Hr2. pose proof (Z.prime_ge_2 _ Hq) as Hq2.
  assert (Hqe0 : 0 < q ^ Z.of_nat e) by (apply Z.pow_pos_nonneg; lia).
  destruct Hqe as [c Hc].
  assert (Hc0 : 0 <= c) by nia.
  assert (Hx : x <> Zmod.zero).
  { apply (pow_one_nonzero x (N - 1)); [lia|apply x_pow_N1]. }
  set (y := Zmod.pow x c).
  assert (Hy1 : Zmod.pow y (q ^ Z.of_nat e) = Zmod.one).
  { unfold y. rewrite <- Zmod.pow_mul_r_nonneg by lia. rewrite <- Hc. apply x_pow_N1. }
  assert (Hy : y <> Zmod.zero).
  { apply (pow_one_nonzero y (q ^ Z.of_nat e)); [lia|trivial]. }
  assert (Hy2 : Zmod.pow y (r - 1) = Zmod.one).
  { replace (r - 1) with (Z.pred r) by lia. apply Zmod.fermat_nz; trivial. }
  pose proof (pow_gcd_one y _ _ Hy Hy1 Hy2) as Hg.
  set (g := Z.gcd (q ^ Z.of_nat e) (r - 1)) in *.
  assert (Hg0 : 0 < g).
  { pose proof (Z.gcd_nonneg (q ^ Z.of_nat e) (r - 1)).
    destruct (Z.eq_dec g 0) as [E|E]; [|unfold g in *; lia].
    apply Z.gcd_eq_0_l in E. lia. }
  destruct (divide_prime_power q e g Hq Hg0 (Z.gcd_divide_l _ _)) as [E|(e' & -> & [k Hk])].
  - rewrite <- E. apply Z.gcd_divide_r.
  - exfalso.
    assert (Hk0 : 0 <= k).
    { assert (0 < q ^ Z.of_nat e') by (apply Z.pow_pos_nonneg; lia). nia. }
    assert (Hy3 : Zmod.pow y (q ^ Z.of_nat e') = Zmod.one).
    { rewrite Hk, Z.mul_comm, Zmod.pow_mul_r_nonneg by lia.
      rewrite Hg. apply Zmod.pow_1_l. }
    assert (Hdiv : (N - 1) / q = c * q ^ Z.of_nat e').
    { rewrite Hc, Nat2Z.inj_succ, Z.pow_succ_r by lia.
      replace (c * (q * q ^ Z.of_nat e')) with (c * q ^ Z.of_nat e' * q) by ring.
      apply Z.div_mul. lia. }
    assert (Hx3 : Zmod.pow x ((N - 1) / q) = Zmod.one).
    { rewrite Hdiv, Zmod.pow_mul_r_nonneg; trivial.
      apply Z.pow_nonneg. lia. }
    unfold x in Hx3. rewrite <- Zmod.of_Z_pow, <- Zmod.of_Z_1 in Hx3.
    2:{ rewrite Hdiv. apply Z.mul_nonneg_nonneg; trivial. apply Z.pow_nonneg. lia. }
    apply Zmod.of_Z_inj in Hx3.
    rewrite <- (Z.mod_mod_divide _ N r HrN) in Hx3.
    assert (Hd1 : (r | a ^ ((N - 1) / q) mod N - 1)).
    { apply Z.mod_divide; [lia|]. apply Z.cong_iff_0. exact Hx3. }
    pose proof (Z.gcd_greatest _ _ _ Hd1 HrN) as Hd. rewrite Hgcd in Hd.
    apply Z.divide_1_r_nonneg in Hd; lia.
Qed.
End PocklingtonStep.

Lemma big_powmod_spec (a m : bigZ) (e : positive) :
  BigZ.to_Z (Big.powmod a e m) = BigZ.to_Z a ^ Z.pos e mod BigZ.to_Z m.
Proof.
  induction e as [e IH|e IH|]; cbn [Big.powmod].
  - rewrite !BigZ.spec_modulo, !BigZ.spec_mul, !BigZ.spec_modulo, !BigZ.spec_mul, IH.
    replace (BigZ.to_Z a ^ Z.pos e~1)
      with (BigZ.to_Z a ^ Z.pos e * BigZ.to_Z a ^ Z.pos e * BigZ.to_Z a).
    + rewrite <- Zmult_mod. apply Zmult_mod_idemp_l.
    + rewrite Pos2Z.inj_xI, Z.pow_add_r, Z.pow_mul_r, Z.pow_2_r, Z.pow_1_r by lia.
      rewrite Z.pow_mul_l. reflexivity.
  - rewrite !BigZ.spec_modulo, !BigZ.spec_mul, IH.
    replace (BigZ.to_Z a ^ Z.pos e~0)
      with (BigZ.to_Z a ^ Z.pos e * BigZ.to_Z a ^ Z.pos e).
    + symmetry. apply Zmult_mod.
    + rewrite Pos2Z.inj_xO, Z.pow_mul_r, Z.pow_2_r by lia.
      rewrite Z.pow_mul_l. reflexivity.
  - rewrite BigZ.spec_modulo, Z.pow_1_r. reflexivity.
Qed.

(** ** Pocklington certificates *)

Definition powmodZ (a e m : Z) : Z :=
  BigZ.to_Z (Big.powmod (BigZ.of_Z a) (Z.to_pos e) (BigZ.of_Z m)).

Lemma powmodZ_spec (a e m : Z) : 0 < e -> powmodZ a e m = a ^ e mod m.
Proof.
  intros He. unfold powmodZ. rewrite big_powmod_spec, !BigZ.spec_of_Z, Z2Pos.id by lia.
  reflexivity.
Qed.

(** A prime [q], the exponent [e] of [q] that is used, and a witness [a]. *)
Definition pock_factor : Type := Z * nat * Z.

Definition prime_power (f : pock_factor) : Z := fst (fst f) ^ Z.of_nat (snd (fst f)).

Definition check_factor (primes : list Z) (N : Z) (f : pock_factor) : bool :=
  let '(q, e, a) := f in
  existsb (Z.eqb q) primes
  && ((N - 1) mod (q ^ Z.of_nat e) =? 0)
  && (0 <? (N - 1) / q)
  && (powmodZ a (N - 1) N =? 1)
  && (Z.gcd (powmodZ a ((N - 1) / q) N - 1) N =? 1).

(** The product of the prime powers, when they are coprime to one another. *)
Fixpoint coprime_product (fs : list pock_factor) : option Z :=
  match fs with
  | [] => Some 1
  | f :: fs' =>
      match coprime_product fs' with
      | Some F => if Z.gcd (prime_power f) F =? 1 then Some (prime_power f * F) else None
      | None => None
      end
  end.

Definition check_pock (primes : list Z) (N : Z) (fs : list pock_factor) : bool :=
  (1 <? N) && forallb (check_factor primes N) fs
  && match coprime_product fs with
     | Some F => (0 <? F) && (N <? F * F)
     | None => false
     end.

Inductive cert_step : Type :=
| Trial (n : Z)
| Pock (N : Z) (fs : list pock_factor).

Fixpoint check_cert (primes : list Z) (steps : list cert_step) : option (list Z) :=
  match steps with
  | [] => Some primes
  | Trial n :: rest =>
      if trial_prime n then check_cert (n :: primes) rest else None
  | Pock N fs :: rest =>
      if check_pock primes N fs then check_cert (N :: primes) rest else None
  end.

Definition certified (steps : list cert_step) (n : Z) : bool :=
  match check_cert [] steps with
  | Some primes => existsb (Z.eqb n) primes
  | None => false
  end.

Lemma divide_coprime_product (a b n : Z) :
  Z.gcd a b = 1 -> (a | n) -> (b | n) -> (a * b | n).
Proof.
  intros Hg [k ->] Hb. rewrite (Z.mul_comm k a) in *.
  apply Z.mul_divide_mono_l. apply Z.gauss with a; [exact Hb|].
  now rewrite Z.gcd_comm.
Qed.

Lemma check_factor_sound (primes : list Z) (N r : Z) (f : pock_factor) :
  (forall q, In q primes -> Z.prime q) -> 1 < N ->
  check_factor primes N f = true -> Z.prime r -> (r | N) ->
  (prime_power f | r - 1).
Proof.
  intros Hprimes HN Hc Hr HrN. destruct f as [[q e] a].
  unfold check_factor in Hc. rewrite !andb_true_iff in Hc.
  destruct Hc as [[[[Hq Hd] Hpos] Hf] Hg].
  apply existsb_exists in Hq. destruct Hq as (q' & Hin & Heq).
  apply Z.eqb_eq in Heq. subst q'.
  apply Z.eqb_eq in Hd, Hf, Hg. apply Z.ltb_lt in Hpos.
  rewrite powmodZ_spec in Hf by lia. rewrite powmodZ_spec in Hg by lia.
  pose proof (Z.prime_ge_2 _ (Hprimes q Hin)).
  unfold prime_power. cbn [fst snd].
  apply (pocklington_step N r q e a); auto.
  apply Z.mod_divide; trivial.
  assert (0 < q ^ Z.of_nat e) by (apply Z.pow_pos_nonneg; lia). lia.
Qed.

Lemma coprime_product_divides (fs : list pock_factor) (n : Z) :
  forall F, coprime_product fs = Some F ->
    (forall f, In f fs -> (prime_power f | n)) -> (F | n).
Proof.
  induction fs as [|f fs IH]; intros F HF Hall.
  - injection HF as <-. apply Z.divide_1_l.
  - cbn [coprime_product] in HF.
    destruct (coprime_product fs) as [F'|]; [|discriminate].
    destruct (Z.eqb_spec (Z.gcd (prime_power f) F') 1) as [Hg|]; [|discriminate].
    injection HF as <-. apply divide_coprime_product; trivial.
    + apply Hall. now left.
    + apply IH; trivial. intros f' Hf'. apply Hall. now right.
Qed.

Theorem check_pock_sound (primes : list Z) (N : Z) (fs : list pock_factor) :
  (forall q, In q primes -> Z.prime q) -> check_pock primes N fs = true -> Z.prime N.
Proof.
  intros Hprimes Hc. unfold check_pock in Hc. rewrite !andb_true_iff in Hc.
  destruct Hc as [[HN Hfs] HF]. apply Z.ltb_lt in HN.
  destruct (coprime_product fs) as [F|] eqn:EF; [|discriminate].
  apply andb_true_iff in HF. destruct HF as [HF0 HF].
  apply Z.ltb_lt in HF0, HF. rewrite forallb_forall in Hfs.
  assert (Hdiv : forall r, Z.prime r -> (r | N) -> F + 1 <= r).
  { intros r Hr HrN. pose proof (Z.prime_ge_2 _ Hr).
    assert (HFr : (F | r - 1)).
    { apply (coprime_product_divides fs); trivial.
      intros f Hf. apply (check_factor_sound primes N); auto. }
    apply Z.divide_pos_le in HFr; lia. }
  apply prime_alt. destruct (prime_dec N) as [Hp|Hnp]; trivial. exfalso.
  destruct (not_prime_divide N HN Hnp) as (m & Hm & [k Hk]).
  assert (Hk1 : 1 < k) by nia.
  assert (Hc : exists c, 1 < c /\ (c | N) /\ c * c <= N).
  { destruct (Z_le_gt_dec m k).
    - exists m. repeat split; try lia; [exists k; lia|nia].
    - exists k. repeat split; try lia; [exists m; lia|nia]. }
  destruct Hc as (c & Hc1 & HcN & Hcc).
  destruct (prime_divisor_exists c Hc1) as (r & Hr & Hrc).
  pose proof (Z.prime_ge_2 _ Hr).
  pose proof (Hdiv r Hr (Z.divide_trans _ _ _ Hrc HcN)).
  apply Z.divide_pos_le in Hrc; [|lia]. nia.
Qed.

Lemma check_cert_sound (steps : list cert_step) :
  forall primes l, (forall q, In q primes -> Z.prime q) ->
    check_cert primes steps = Some l -> forall q, In q l -> Z.prime q.
Proof.
  induction steps as [|[n|N fs] steps IH]; intros primes l Hprimes Hc.
  - injection Hc as <-. exact Hprimes.
  - cbn [check_cert] in Hc. destruct (trial_prime n) eqn:E; [|discriminate].
    apply (IH (n :: primes)); trivial.
    intros q [<-|Hq]; [now apply trial_prime_sound|now apply Hprimes].
  - cbn [check_cert] in Hc. destruct (check_pock primes N fs) eqn:E; [|discriminate].
    apply (IH (N :: primes)); trivial.
    intros q [<-|Hq]; [now apply (check_pock_sound primes _ fs)|now apply Hprimes].
Qed.

Theorem certified_sound (steps : list cert_step) (n : Z) :
  certified steps n = true -> Z.prime n.
Proof.
  unfold certified. destruct (check_cert [] steps) as [l|] eqn:E; [|discriminate].
  intros H. apply existsb_exists in H. destruct H as (q & Hq & Heq).
  apply Z.eqb_eq in Heq. subst q.
  apply (check_cert_sound steps [] l); trivial. intros q [].
Qed.

Definition p256_certificate : list cert_step :=
  [ Trial 2; Trial 3; Trial 5; Trial 7; Trial 11; Trial 17; Trial 23; Trial 53;
    Trial 107; Trial 173; Trial 197; Trial 257; Trial 641; Trial 1531; Trial 2411;
    Trial 17449; Trial 65537; Trial 490463;
    Pock 6700417 [(2, 7%nat, 5); (3, 1%nat, 5); (17449, 1%nat, 3)];
    Pock 204061199 [(2, 1%nat, 11); (11, 1%nat, 3); (23, 1%nat, 2); (107, 1%nat, 2)];
    Pock 34282281433 [(2, 3%nat, 5); (3, 1%nat, 17); (7, 1%nat, 3); (204061199, 1%nat, 2)];
    Pock 66417393611
      [(2, 1%nat, 2); (5, 1%nat, 3); (53, 1%nat, 2); (173, 1%nat, 2); (197, 1%nat, 2)];
    Pock 11290956913871
      [(2, 1%nat, 13); (5, 1%nat, 2); (17, 1%nat, 2); (66417393611, 1%nat, 2)];
    Pock 774023187263532362759620327192479577272145303
      [(2, 1%nat, 3); (3, 2%nat, 2); (2411, 1%nat, 2); (34282281433, 1%nat, 2);
       (11290956913871, 1%nat, 2)];
    Pock 835945042244614951780389953367877943453916927241
      [(2, 3%nat, 7); (3, 3%nat, 2); (5, 1%nat, 2);
       (774023187263532362759620327192479577272145303, 1%nat, 2)];
    Pock 115792089210356248762697446949407573530086143415290314195533631308867097853951
      [(2, 1%nat, 3); (3, 1%nat, 2); (5, 2%nat, 2); (17, 1%nat, 2); (257, 1%nat, 2);
       (641, 1%nat, 2); (1531, 1%nat, 2); (65537, 1%nat, 2); (490463, 1%nat, 2);
       (6700417, 1%nat, 2);
       (835945042244614951780389953367877943453916927241, 1%nat, 2)] ].


(** The modulus of the field of P-256 is a prime number. *)
Theorem p_prime : Z.prime _curve.p.
Proof. apply (certified_sound p256_certificate). vm_compute. reflexivity. Qed.

(** ** Valid points *)

(** A point of the curve: both coordinates reduced and the short-Weierstrass
    equation [y^2 = x^3 - 3x + b] satisfied modulo [p]. *)
Definition on_curve (P : EccPoint) : bool :=
  (0 <=? _x P) && (_x P <? _curve.p) && (0 <=? _y P) && (_y P <? _curve.p)
  && (((_y P) ^ 2 - ((_x P) ^ 3 - 3 * _x P + curve_b)) mod _curve.p =? 0).

(** The values a point may take: the [(0, 0)] sentinel or a point of the
    curve. *)
Definition valid_point (P : EccPoint) : bool :=
  is_point_at_infinity P || on_curve P.

(** * The claims *)

(** ** Doubling the sentinel *)

(** C10: doubling the point at infinity returns the point at infinity without
    error; the [(0, 0)] sentinel has [y == 0], so the first test of [double]
    answers before the tangent formula and its modular inverse are reached. *)
Theorem double_point_at_infinity :
  double point_at_infinity = Ok point_at_infinity
  /\ _y point_at_infinity = 0
  /\ __eq__ point_at_infinity point_at_infinity = true.
Proof. repeat split. Qed.

(** ** The order of the cases of [multiply] *)

Definition invalid_scalar : exn :=
  ValueError "Scalar multiplication only defined for non-negative integers".

(** C5, as stated, fails: the point at infinity multiplied by [-1] raises the
    invalid-scalar error, it does not return the point at infinity. *)
Lemma multiply_infinity_negative_raises :
  is_point_at_infinity point_at_infinity = true
  /\ fst (multiply point_at_infinity (-1)) = Raise invalid_scalar.
Proof. split; reflexivity. Qed.

(** C5, amended: a negative scalar raises the invalid-scalar error whatever
    the point is, the point at infinity included; for a scalar that is not
    negative, [k == 0] or [P] at infinity gives the point at infinity; and
    [k == 1] on another point gives a copy of [P], equal to [P] coordinate by
    coordinate. *)
Theorem multiply_case_order (P : EccPoint) (k : Z) :
  (k < 0 -> fst (multiply P k) = Raise invalid_scalar)
  /\ (0 <= k -> k = 0 \/ is_point_at_infinity P = true ->
      fst (multiply P k) = Ok point_at_infinity)
  /\ (k = 1 -> is_point_at_infinity P = false ->
      fst (multiply P k) = Ok (copy P) /\ __eq__ (copy P) P = true).
Proof.
  unfold multiply. repeat split.
  - intros Hk. destruct (Z.ltb_spec k 0); [reflexivity|lia].
  - intros Hk [->|Hinf].
    + reflexivity.
    + destruct (Z.ltb_spec k 0); [lia|]. rewrite Hinf, orb_true_r. reflexivity.
  - subst k. rewrite H0. reflexivity.
  - unfold __eq__, copy. cbn [_x _y EccPoint_init]. now rewrite !Z.eqb_refl.
Qed.

Lemma multiply_case_order_witness :
  fst (multiply point_at_infinity (-1)) = Raise invalid_scalar
  /\ fst (multiply G 0) = Ok point_at_infinity
  /\ fst (multiply G 1) = Ok (copy G).
Proof.
  split; [|split].
  - apply (proj1 (multiply_case_order point_at_infinity (-1))). lia.
  - apply (proj1 (proj2 (multiply_case_order G 0))); [lia|now left].
  - apply (proj2 (proj2 (multiply_case_order G 1))); reflexivity.
Defined.

(** ** The table is not part of the value *)

Lemma multiply_self (P : EccPoint) (k : Z) :
  snd (multiply P k) = P
  \/ exists t, snd (multiply P k) = set_precomp P t.
Proof.
  unfold multiply.
  destruct (k <? 0); [now left|].
  destruct ((k =? 0) || is_point_at_infinity P); [now left|].
  destruct (k =? 1); [now left|].
  destruct (naf_loop (naf_fuel k) k []); [|now left].
  destruct (_precomp P); [now left|].
  destruct (build_precomp P) as [t| |]; [right; now exists t|now left..].
Qed.

(** C9: whatever [multiply] does to [P] (for [k >= 2] it stores the table of
    odd multiples in it), the coordinates of [P] are the same after the call,
    and [P] equals the same points as before, on either side of [==]:
    [__eq__] reads the two coordinates and nothing else. *)
Theorem multiply_leaves_value (P : EccPoint) (k : Z) :
  let P' := snd (multiply P k) in
  _x P' = _x P /\ _y P' = _y P
  /\ forall Q : EccPoint, __eq__ P' Q = __eq__ P Q /\ __eq__ Q P' = __eq__ Q P.
Proof.
  cbv zeta. destruct (multiply_self P k) as [->|[t ->]]; [now repeat split|].
  unfold __eq__, set_precomp. cbn [_x _y]. now repeat split.
Qed.

(** ** The order of the base point *)

Definition order_hints : Big.hints :=
  Eval vm_compute in
    Big.log_of (Big.multiply Big.no_hints _curve.Gx _curve.Gy _curve.order).

(** C6: the base point multiplied by the group order is the point at
    infinity, for the P-256 constants of [_curve]. *)
Theorem G_multiply_order :
  exists R : EccPoint,
    fst (multiply G _curve.order) = Ok R /\ __eq__ R point_at_infinity = true.
Proof.
  exists point_at_infinity. split; [|reflexivity].
  apply (big_multiply_sound order_hints) with (log := order_hints); [reflexivity..|].
  vm_compute. reflexivity.
Qed.

(** ** Signing without a private scalar *)

Definition missing_private_key : exn :=
  ValueError "This is not a private ECC key".

(** C4: [_sign] reads the attribute [self._d], not the property [d] that
    raises the missing-private-key error.  On a key that holds a public point
    only, with [k = 1], the nonce point and [r] are computed first and the
    product [self._d * r] then fails as a type error, whatever [z], the curve
    name and the point are; the property [d] of the same key raises the
    missing-private-key error. *)
Theorem _sign_public_only (c : option string) (pt : option EccPoint) (z : Z) :
  has_private (mkEccKey c None pt) = false
  /\ d (mkEccKey c None pt) = Raise missing_private_key
  /\ fst (_sign (mkEccKey c None pt) z 1 G) = Raise TypeError.
Proof. repeat split. Qed.

(** With the private scalar present, [_sign] returns [(r, s)] with
    [r = (G*k).x mod order] and [s = k^-1 * (z + d*r) mod order]. *)
Lemma _sign_private (K : EccKey) (dv z k i : Z) (pt : EccPoint) :
  _d K = Some dv ->
  0 < k < _curve.order ->
  fst (multiply G k) = Ok pt ->
  is_point_at_infinity pt = false ->
  inverse k _curve.order = Ok i ->
  fst (_sign K z k G)
  = Ok (_x pt mod _curve.order,
        i * (z + dv * (_x pt mod _curve.order)) mod _curve.order).
Proof.
  intros Hd Hk Hm Hinf Hi. unfold _sign.
  destruct (Z.ltb_spec 0 k); [|lia]. destruct (Z.ltb_spec k _curve.order); [|lia].
  cbn [andb negb]. destruct (multiply G k) as [r G']. cbn [fst] in *. subst r.
  cbn [bind]. unfold x. rewrite Hinf. cbn [bind]. rewrite Hi. cbn [bind].
  rewrite Hd. reflexivity.
Qed.

(** ** Verification *)

(** What [_verify] answers once its steps have gone through: the inverse of
    [s], the product of [_curve.G], the access to [pointQ], the product of
    the public point and the sum [R] of the two products.  The [x] property
    of [R] raises on the point at infinity; otherwise the coordinate is
    compared with [r] as it is. *)
Lemma _verify_outcome (K K1 : EccKey) (G0 G1 G2 Q : EccPoint) (z r s sinv : Z)
    (point1 point2 R : EccPoint) :
  inverse s _curve.order = Ok sinv ->
  multiply G0 ((sinv * z) mod _curve.order) = (Ok point1, G1) ->
  pointQ K G1 = (Ok Q, K1, G2) ->
  fst (multiply Q ((sinv * r) mod _curve.order)) = Ok point2 ->
  add point1 point2 = Ok R ->
  fst (fst (_verify K z (r, s) G0))
  = if is_point_at_infinity R then Raise (ValueError "Point at infinity")
    else Ok (_x R =? r).
Proof.
  intros Hs H1 HQ H2 HR. unfold _verify. cbn [fst snd]. rewrite Hs, H1, HQ.
  destruct (multiply Q _) as [r2 Q']. cbn [fst] in H2. subst r2.
  cbn [bind fst]. rewrite HR. cbn [bind]. unfold x.
  destruct (is_point_at_infinity R); reflexivity.
Qed.

(** A public point whose [x] coordinate lies between [order] and [p]. *)
Definition Q_high : EccPoint :=
  EccPoint_init (_curve.order + 3)
    32706189264453802455814072046653030381229678745603722161528888200092968145471.

Definition K_high : EccKey := mkEccKey (Some "P-256"%string) None (Some Q_high).

(** C2: [_verify] compares [R.x] with [r] without reducing it modulo
    [order], where [_sign] does reduce.  For the public key [Q_high], a point
    of the curve, with [z = 0] and [(r, s) = (3, 3)]: [u1 = 0], [u2 = 1],
    [R = Q_high] is not the point at infinity and [R.x mod order = 3 = r],
    yet [_verify] answers false. *)
Theorem _verify_compares_unreduced :
  EccKey_init (Some "P-256"%string) None (Some Q_high) = Ok K_high
  /\ on_curve Q_high = true
  /\ exists sinv R : _,
      inverse 3 _curve.order = Ok sinv
      /\ fst (multiply G ((sinv * 0) mod _curve.order)) = Ok point_at_infinity
      /\ fst (multiply Q_high ((sinv * 3) mod _curve.order)) = Ok (copy Q_high)
      /\ add point_at_infinity (copy Q_high) = Ok R
      /\ is_point_at_infinity R = false
      /\ _x R mod _curve.order = 3
      /\ fst (fst (_verify K_high 0 (3, 3) G)) = Ok false.
Proof.
  split; [reflexivity|]. split; [vm_compute; reflexivity|].
  exists (Z.invmod 3 _curve.order), (copy Q_high).
  repeat split; vm_compute; reflexivity.
Qed.

(** The opposite of the base point, the public point of the private scalar
    [order - 1]. *)
Definition G_neg : EccPoint := EccPoint_init _curve.Gx (_curve.p - _curve.Gy).

Definition K_neg : EccKey := mkEccKey (Some "P-256"%string) None (Some G_neg).

(** C3, as stated, fails: for the public key [G_neg], a point of the curve,
    with [z = 1] and [(r, s) = (1, 1)], the sum [R = G + G_neg] is the point
    at infinity and [_verify] raises, it does not return false. *)
Lemma _verify_raises_at_infinity :
  EccKey_init (Some "P-256"%string) None (Some G_neg) = Ok K_neg
  /\ on_curve G_neg = true
  /\ inverse 1 _curve.order = Ok 1
  /\ fst (multiply G ((1 * 1) mod _curve.order)) = Ok (copy G)
  /\ fst (multiply G_neg ((1 * 1) mod _curve.order)) = Ok (copy G_neg)
  /\ add (copy G) (copy G_neg) = Ok point_at_infinity
  /\ fst (fst (_verify K_neg 1 (1, 1) G)) = Raise (ValueError "Point at infinity").
Proof. repeat split; vm_compute; reflexivity. Qed.

(** C3, amended: once the inverse of [s], the two scalar products and their
    sum [R] have been computed, for a key that stores its public point or
    derives it from its private scalar, [_verify] raises the
    point-at-infinity error of the [x] property when [R] is the point at
    infinity; when [R] is another point, [r] is reduced modulo [order] and
    [R.x mod order] differs from [r], it returns false without raising. *)
Theorem _verify_non_matching (K K1 : EccKey) (G0 G1 G2 Q : EccPoint)
    (z r s sinv : Z) (point1 point2 R : EccPoint) :
  inverse s _curve.order = Ok sinv ->
  multiply G0 ((sinv * z) mod _curve.order) = (Ok point1, G1) ->
  pointQ K G1 = (Ok Q, K1, G2) ->
  fst (multiply Q ((sinv * r) mod _curve.order)) = Ok point2 ->
  add point1 point2 = Ok R ->
  (is_point_at_infinity R = true ->
   fst (fst (_verify K z (r, s) G0)) = Raise (ValueError "Point at infinity"))
  /\ (is_point_at_infinity R = false ->
      0 <= r < _curve.order -> _x R mod _curve.order <> r ->
      fst (fst (_verify K z (r, s) G0)) = Ok false).
Proof.
  intros Hs H1 HQ H2 HR.
  rewrite (_verify_outcome K K1 G0 G1 G2 Q z r s sinv point1 point2 R Hs H1 HQ H2 HR).
  split.
  - now intros ->.
  - intros -> Hr Hne. destruct (Z.eqb_spec (_x R) r) as [E|E]; [|reflexivity].
    exfalso. apply Hne. rewrite E. apply Z.mod_small. exact Hr.
Qed.

(** A private key that stores no point: its public point is derived at the
    first access. *)
Definition K_two : EccKey := mkEccKey (Some "P-256"%string) (Some 2) None.

Lemma _verify_non_matching_witness :
  fst (fst (_verify K_neg 1 (1, 1) G)) = Raise (ValueError "Point at infinity")
  /\ fst (fst (_verify K_two 1 (1, 1) G)) = Ok false.
Proof.
  split.
  - apply (proj1 (_verify_non_matching K_neg K_neg G G G G_neg 1 1 1 1
                    (copy G) (copy G_neg) point_at_infinity
                    eq_refl eq_refl eq_refl eq_refl eq_refl)).
    reflexivity.
  - refine (proj2 (_verify_non_matching K_two _ G G _ _ 1 1 1 1 (copy G) _ _
                    eq_refl eq_refl _ _ _) _ _ _).
    + vm_compute. reflexivity.
    + vm_compute. reflexivity.
    + vm_compute. reflexivity.
    + reflexivity.
    + split; [apply Z.leb_le|apply Z.ltb_lt]; reflexivity.
    + vm_compute. discriminate.
Defined.

(** * Further properties of the code *)

(** ** Coordinates in range *)

(** Both coordinates reduced modulo [p]. *)
Definition in_range (P : EccPoint) : bool :=
  (0 <=? _x P) && (_x P <? _curve.p) && (0 <=? _y P) && (_y P <? _curve.p).

Lemma in_range_spec (P : EccPoint) :
  in_range P = true <-> 0 <= _x P < _curve.p /\ 0 <= _y P < _curve.p.
Proof. unfold in_range. rewrite !andb_true_iff. lia. Qed.

Lemma p_odd : _curve.p mod 2 = 1.
Proof. reflexivity. Qed.

(** A number that [p] does not divide has an inverse: [inverse] returns it
    and does not raise. *)
Lemma inverse_nonzero (a : Z) :
  a mod _curve.p <> 0 ->
  inverse a _curve.p = Ok (Z.invmod a _curve.p)
  /\ (Z.invmod a _curve.p * a) mod _curve.p = 1.
Proof.
  intros Ha. pose proof p_prime as Hp. unfold inverse.
  assert (Hg : Z.gcd a _curve.p = 1).
  { rewrite Z.gcd_comm. apply (Z.coprime_prime_l _ _ Hp).
    intros Hd. apply Ha. apply Z.mod_divide in Hd; [exact Hd|]. pose proof p_pos. lia. }
  rewrite Hg. split; [reflexivity|]. now apply Z.invmod_prime.
Qed.

(** The difference of two distinct residues is not a multiple of [p]. *)
Lemma diff_nonzero (a b : Z) :
  0 <= a < _curve.p -> 0 <= b < _curve.p -> a <> b -> (a - b) mod _curve.p <> 0.
Proof.
  intros Ha Hb Hab Hm. apply Z.mod_divide in Hm; [|lia]. destruct Hm as [c Hc].
  assert (c = 0) by nia. lia.
Qed.

(** Twice a non-zero residue is not a multiple of [p], an odd number. *)
Lemma twice_nonzero (a : Z) :
  0 < a < _curve.p -> (Z.shiftl a 1) mod _curve.p <> 0.
Proof.
  intros Ha Hm. rewrite Z.shiftl_mul_pow2 in Hm by lia. change (2 ^ 1) with 2 in Hm.
  apply Z.mod_divide in Hm; [|lia]. destruct Hm as [c Hc].
  assert (c = 1) by nia. subst c. pose proof p_odd as Ho.
  rewrite Z.mul_1_l in Hc. rewrite <- Hc in Ho.
  rewrite Z.mod_mul in Ho; lia.
Qed.

(** What the [while x3 < 0] loop leaves of [a - u - w]. *)
Lemma reduced_x_range (a u w : Z) :
  0 <= a < _curve.p -> 0 <= u -> 0 <= w ->
  0 <= (if a - u - w <? 0 then (a - u - w) mod _curve.p else a - u - w) < _curve.p.
Proof.
  intros Ha Hu Hw. destruct (Z.ltb_spec (a - u - w) 0).
  - apply Z.mod_pos_bound. lia.
  - lia.
Qed.

(** [double] on a point in range. *)
Lemma double_range (P : EccPoint) :
  in_range P = true ->
  exists R : EccPoint, double P = Ok R /\ in_range R = true.
Proof.
  intros [Hx Hy]%in_range_spec. unfold double.
  destruct (Z.eqb_spec (_y P) 0) as [E|E].
  - exists point_at_infinity. split; reflexivity.
  - destruct (inverse_nonzero (Z.shiftl (_y P) 1)) as [-> _];
      [apply twice_nonzero; lia|].
    cbn [bind]. rewrite while_negative_add_p_fuel. cbn [of_loop bind].
    eexists. split; [reflexivity|]. apply in_range_spec. cbn [_x _y EccPoint_init].
    split.
    + apply reduced_x_range; try lia. apply Z.mod_pos_bound. lia.
    + apply Z.mod_pos_bound. lia.
Qed.

Lemma copy_in_range (P : EccPoint) : in_range (copy P) = in_range P.
Proof. reflexivity. Qed.

(** [add] on two points in range. *)
Lemma add_range (P Q : EccPoint) :
  in_range P = true -> in_range Q = true ->
  exists R : EccPoint, add P Q = Ok R /\ in_range R = true.
Proof.
  intros HP HQ. unfold add.
  destruct (is_point_at_infinity P); [exists (copy Q); now rewrite copy_in_range|].
  destruct (is_point_at_infinity Q); [exists (copy P); now rewrite copy_in_range|].
  destruct (__eq__ P Q); [now apply double_range|].
  destruct (Z.eqb_spec (_x P) (_x Q)) as [E|E];
    [exists point_at_infinity; split; reflexivity|].
  apply in_range_spec in HP as [HPx HPy]. apply in_range_spec in HQ as [HQx HQy].
  destruct (inverse_nonzero (_x Q - _x P)) as [-> _];
    [apply diff_nonzero; lia|].
  cbn [bind]. rewrite while_negative_add_p_fuel. cbn [of_loop bind].
  eexists. split; [reflexivity|]. apply in_range_spec. cbn [_x _y EccPoint_init].
  split.
  - apply reduced_x_range; try lia. apply Z.mod_pos_bound. lia.
  - apply Z.mod_pos_bound. lia.
Qed.

(** X1: [double] and [add] do not raise on points in range, and their results
    are in range: the [while x3 < 0] loop ends on a residue, and no inverse
    is missing, as [p] is prime. *)
Theorem add_double_in_range (P Q : EccPoint) :
  in_range P = true -> in_range Q = true ->
  (exists R : EccPoint, double P = Ok R /\ in_range R = true)
  /\ (exists R : EccPoint, add P Q = Ok R /\ in_range R = true).
Proof. intros HP HQ. split; [now apply double_range|now apply add_range]. Qed.

Lemma add_double_in_range_witness :
  (exists R : EccPoint, double G = Ok R /\ in_range R = true)
  /\ (exists R : EccPoint, add G Q_high = Ok R /\ in_range R = true).
Proof. apply (add_double_in_range G Q_high); reflexivity. Defined.

(** ** Equality and the opposite *)

Lemma __eq___refl (P : EccPoint) : __eq__ P P = true.
Proof. unfold __eq__. now rewrite !Z.eqb_refl. Qed.

Lemma __eq___sym (P Q : EccPoint) : __eq__ P Q = __eq__ Q P.
Proof. unfold __eq__. now rewrite (Z.eqb_sym (_x P)), (Z.eqb_sym (_y P)). Qed.

Lemma __neg___infinity (P : EccPoint) :
  in_range P = true ->
  is_point_at_infinity (__neg__ P) = is_point_at_infinity P.
Proof.
  intros [Hx Hy]%in_range_spec. unfold __neg__.
  destruct (is_point_at_infinity P) eqn:Hinf; [reflexivity|].
  unfold is_point_at_infinity in *. cbn [_x _y EccPoint_init].
  destruct (Z.eqb_spec (_x P) 0); [|reflexivity].
  destruct (Z.eqb_spec (_curve.p - _y P) 0); [lia|reflexivity].
Qed.

(** X2: [==] on points is an equivalence relation. *)
Theorem __eq___equivalence (P Q R : EccPoint) :
  __eq__ P P = true
  /\ __eq__ P Q = __eq__ Q P
  /\ (__eq__ P Q = true -> __eq__ Q R = true -> __eq__ P R = true).
Proof.
  unfold __eq__. repeat split.
  - now rewrite !Z.eqb_refl.
  - now rewrite (Z.eqb_sym (_x P)), (Z.eqb_sym (_y P)).
  - intros [->%Z.eqb_eq ->%Z.eqb_eq]%andb_true_iff. trivial.
Qed.

(** X3: The opposite of a point in range is not the sentinel unless the point
    is, and the opposite of the opposite is the point again, also when
    [y = 0] takes the opposite out of range. *)
Theorem __neg___involutive (P : EccPoint) :
  in_range P = true ->
  is_point_at_infinity (__neg__ P) = is_point_at_infinity P
  /\ __eq__ (__neg__ (__neg__ P)) P = true.
Proof.
  intros [Hx Hy]%in_range_spec. unfold __neg__.
  destruct (is_point_at_infinity P) eqn:Hinf.
  - split; [reflexivity|]. change (is_point_at_infinity point_at_infinity) with true.
    cbv iota. unfold is_point_at_infinity in Hinf.
    apply andb_true_iff in Hinf as [E1%Z.eqb_eq E2%Z.eqb_eq].
    unfold __eq__. now rewrite E1, E2.
  - assert (Hn : is_point_at_infinity (EccPoint_init (_x P) (_curve.p - _y P)) = false).
    { unfold is_point_at_infinity in *. cbn [_x _y EccPoint_init].
      destruct (Z.eqb_spec (_x P) 0); [|reflexivity].
      destruct (Z.eqb_spec (_curve.p - _y P) 0); [lia|reflexivity]. }
    split; [exact Hn|]. rewrite Hn. unfold __eq__. cbn [_x _y EccPoint_init].
    rewrite Z.eqb_refl. apply Z.eqb_eq. lia.
Qed.

Lemma __neg___involutive_witness :
  is_point_at_infinity (__neg__ G) = is_point_at_infinity G
  /\ __eq__ (__neg__ (__neg__ G)) G = true.
Proof. apply (__neg___involutive G). reflexivity. Defined.

(** X4: A point in range and its opposite add up to the point at infinity, in
    either order. *)
Theorem add_opposite (P : EccPoint) :
  in_range P = true ->
  add P (__neg__ P) = Ok point_at_infinity
  /\ add (__neg__ P) P = Ok point_at_infinity.
Proof.
  intros HP. pose proof (__neg___infinity P HP) as Hinf.
  apply in_range_spec in HP as [Hx Hy]. pose proof p_odd as Ho.
  unfold add. rewrite Hinf.
  destruct (is_point_at_infinity P) eqn:HP.
  - unfold __neg__. rewrite HP. unfold is_point_at_infinity in HP.
    apply andb_true_iff in HP as [E1%Z.eqb_eq E2%Z.eqb_eq].
    split; [reflexivity|]. unfold copy. now rewrite E1, E2.
  - unfold __neg__. rewrite HP. unfold __eq__. cbn [_x _y EccPoint_init].
    rewrite !Z.eqb_refl. cbn [andb].
    assert (Hne : _y P <> _curve.p - _y P).
    { intros E. assert (E2 : _curve.p = 2 * _y P) by lia.
      rewrite E2, Z.mul_comm, Z.mod_mul in Ho; lia. }
    destruct (Z.eqb_spec (_y P) (_curve.p - _y P)); [contradiction|].
    destruct (Z.eqb_spec (_curve.p - _y P) (_y P)); [lia|]. split; reflexivity.
Qed.

Lemma add_opposite_witness :
  add G (__neg__ G) = Ok point_at_infinity
  /\ add (__neg__ G) G = Ok point_at_infinity.
Proof. apply (add_opposite G). reflexivity. Defined.

(** X5: Adding a point to itself is doubling it: [P.add(P)] returns what
    [P.double()] returns, for every point, the point at infinity included,
    where [add] answers with a copy before it compares the points. *)
Theorem add_self_double (P : EccPoint) : add P P = double P.
Proof.
  unfold add. destruct (is_point_at_infinity P) eqn:Hinf.
  - unfold is_point_at_infinity in Hinf.
    apply andb_true_iff in Hinf as [E1%Z.eqb_eq E2%Z.eqb_eq].
    unfold double, copy. rewrite E1, E2. reflexivity.
  - now rewrite __eq___refl.
Qed.

(** ** The chord, the tangent and the cubic over a field *)

From Stdlib Require ZmodNsatz Integral_domain NsatzTactic.

Module Kernel.
Import ZmodNsatz Integral_domain NsatzTactic.
#[local] Close Scope Z_scope.

Section Generic.
Context {R : Type} `{Rid : Integral_domain R}.

(** The slope of the chord does not depend on the order of its ends. *)
Lemma chord_slope_sym (x1 y1 x2 y2 i j : R) :
  i * (x2 - x1) == 1 -> j * (x1 - x2) == 1 ->
  (y2 - y1) * i == (y1 - y2) * j.
Proof. intros. nsatz. Qed.

(** Nor does the third point. *)
Lemma chord_y_sym (x1 y1 x2 y2 i x3 : R) :
  i * (x2 - x1) == 1 ->
  (x1 - x3) * ((y2 - y1) * i) - y1 == (x2 - x3) * ((y2 - y1) * i) - y2.
Proof. intros. nsatz. Qed.

(** The third point of a chord of the curve [y^2 = x^3 - 3x + b] is on the
    curve. *)
Lemma chord_on_curve (b x1 y1 x2 y2 i : R) :
  y1 * y1 == x1 * x1 * x1 - (1 + 1 + 1) * x1 + b ->
  y2 * y2 == x2 * x2 * x2 - (1 + 1 + 1) * x2 + b ->
  i * (x2 - x1) == 1 ->
  let l := (y2 - y1) * i in
  let x3 := l * l - x1 - x2 in
  let y3 := (x1 - x3) * l - y1 in
  y3 * y3 == x3 * x3 * x3 - (1 + 1 + 1) * x3 + b.
Proof. cbv zeta. intros. nsatz. Qed.

(** So is the second point of a tangent. *)
Lemma tangent_on_curve (b x1 y1 i : R) :
  y1 * y1 == x1 * x1 * x1 - (1 + 1 + 1) * x1 + b ->
  i * ((1 + 1) * y1) == 1 ->
  let l := (x1 * x1 * (1 + 1 + 1) - (1 + 1 + 1)) * i in
  let x3 := l * l - x1 - x1 in
  let y3 := (x1 - x3) * l - y1 in
  y3 * y3 == x3 * x3 * x3 - (1 + 1 + 1) * x3 + b.
Proof. cbv zeta. intros. nsatz. Qed.

(** The product of two polynomials of degree two at a root [r] of the cubic,
    with [r^3] and [r^4] replaced by what the cubic makes them. *)
Lemma mulmod_kernel (b r a0 a1 a2 c0 c1 c2 : R) :
  r * r * r - (1 + 1 + 1) * r + b == 0 ->
  (a0 * c0 - b * (a1 * c2 + a2 * c1))
  + (a0 * c1 + a1 * c0 + (1 + 1 + 1) * (a1 * c2 + a2 * c1) - b * (a2 * c2)) * r
  + (a0 * c2 + a1 * c1 + a2 * c0 + (1 + 1 + 1) * (a2 * c2)) * (r * r)
  == (a0 + a1 * r + a2 * (r * r)) * (c0 + c1 * r + c2 * (r * r)).
Proof. intros. nsatz. Qed.

End Generic.

#[local] Open Scope Z_scope.
#[local] Opaque Zmod.mul Zmod.add Zmod.sub Zmod.opp Zmod.one Zmod.zero.

#[local] Instance Integral_domain_p : Integral_domain (Rr := Ring_Zmod _curve.p) :=
  Integral_domain_Zmod _curve.p p_prime.


Lemma chord_slope_sym_p (x1 y1 x2 y2 i j : Zmod _curve.p) :
  (i * (x2 - x1) = 1 -> j * (x1 - x2) = 1 -> (y2 - y1) * i = (y1 - y2) * j)%Zmod.
Proof. exact (chord_slope_sym (Rid := Integral_domain_p) x1 y1 x2 y2 i j). Qed.

Lemma chord_y_sym_p (x1 y1 x2 y2 i x3 : Zmod _curve.p) :
  (i * (x2 - x1) = 1 ->
   (x1 - x3) * ((y2 - y1) * i) - y1 = (x2 - x3) * ((y2 - y1) * i) - y2)%Zmod.
Proof. exact (chord_y_sym (Rid := Integral_domain_p) x1 y1 x2 y2 i x3). Qed.

Lemma chord_on_curve_p (b x1 y1 x2 y2 i : Zmod _curve.p) :
  (y1 * y1 = x1 * x1 * x1 - (1 + 1 + 1) * x1 + b ->
   y2 * y2 = x2 * x2 * x2 - (1 + 1 + 1) * x2 + b ->
   i * (x2 - x1) = 1 ->
   let l := (y2 - y1) * i in
   let x3 := l * l - x1 - x2 in
   let y3 := (x1 - x3) * l - y1 in
   y3 * y3 = x3 * x3 * x3 - (1 + 1 + 1) * x3 + b)%Zmod.
Proof. exact (chord_on_curve (Rid := Integral_domain_p) b x1 y1 x2 y2 i). Qed.

Lemma tangent_on_curve_p (b x1 y1 i : Zmod _curve.p) :
  (y1 * y1 = x1 * x1 * x1 - (1 + 1 + 1) * x1 + b ->
   i * ((1 + 1) * y1) = 1 ->
   let l := (x1 * x1 * (1 + 1 + 1) - (1 + 1 + 1)) * i in
   let x3 := l * l - x1 - x1 in
   let y3 := (x1 - x3) * l - y1 in
   y3 * y3 = x3 * x3 * x3 - (1 + 1 + 1) * x3 + b)%Zmod.
Proof. exact (tangent_on_curve (Rid := Integral_domain_p) b x1 y1 i). Qed.

Lemma mulmod_kernel_p (b r a0 a1 a2 c0 c1 c2 : Zmod _curve.p) :
  (r * r * r - (1 + 1 + 1) * r + b = 0 ->
   (a0 * c0 - b * (a1 * c2 + a2 * c1))
   + (a0 * c1 + a1 * c0 + (1 + 1 + 1) * (a1 * c2 + a2 * c1) - b * (a2 * c2)) * r
   + (a0 * c2 + a1 * c1 + a2 * c0 + (1 + 1 + 1) * (a2 * c2)) * (r * r)
   = (a0 + a1 * r + a2 * (r * r)) * (c0 + c1 * r + c2 * (r * r)))%Zmod.
Proof. exact (mulmod_kernel (Rid := Integral_domain_p) b r a0 a1 a2 c0 c1 c2). Qed.

End Kernel.

(** ** Residues modulo [p] as field elements *)

#[local] Opaque Zmod.mul Zmod.add Zmod.sub Zmod.opp Zmod.one Zmod.zero.

Definition fe (a : Z) : Zmod _curve.p := Zmod.of_Z _curve.p a.

Lemma fe_eq (a b : Z) : fe a = fe b <-> a mod _curve.p = b mod _curve.p.
Proof. apply Zmod.of_Z_inj. Qed.

Lemma fe_mod (a : Z) : fe (a mod _curve.p) = fe a.
Proof. apply Zmod.of_Z_mod. Qed.

Lemma fe_add (a b : Z) : fe (a + b) = (fe a + fe b)%Zmod.
Proof. apply Zmod.of_Z_add. Qed.

Lemma fe_sub (a b : Z) : fe (a - b) = (fe a - fe b)%Zmod.
Proof. apply Zmod.of_Z_sub. Qed.

Lemma fe_mul (a b : Z) : fe (a * b) = (fe a * fe b)%Zmod.
Proof. apply Zmod.of_Z_mul. Qed.

Lemma fe_1 : fe 1 = 1%Zmod.
Proof. apply Zmod.of_Z_1. Qed.

Lemma fe_inverse (i a : Z) :
  (i * a) mod _curve.p = 1 -> (fe i * fe a)%Zmod = 1%Zmod.
Proof.
  intros H. rewrite <- fe_mul, <- fe_1. apply fe_eq. rewrite H. reflexivity.
Qed.

(** ** Addition is commutative *)

(** [double] reads the two coordinates and nothing else. *)
Lemma double_ext (P Q : EccPoint) :
  _x P = _x Q -> _y P = _y Q -> double P = double Q.
Proof. unfold double. now intros -> ->. Qed.

(** The general case of [add], in closed form. *)
Lemma add_chord (P Q : EccPoint) :
  in_range P = true -> in_range Q = true ->
  is_point_at_infinity P = false -> is_point_at_infinity Q = false ->
  _x P <> _x Q ->
  let i := Z.invmod (_x Q - _x P) _curve.p in
  let c := ((_y Q - _y P) * i) mod _curve.p in
  let v := c ^ 2 mod _curve.p - _x P - _x Q in
  let x3 := if v <? 0 then v mod _curve.p else v in
  add P Q = Ok (EccPoint_init x3 (((_x P - x3) * c - _y P) mod _curve.p))
  /\ (i * (_x Q - _x P)) mod _curve.p = 1
  /\ fe x3 = fe v
  /\ 0 <= x3 < _curve.p.
Proof.
  intros [HPx HPy]%in_range_spec [HQx HQy]%in_range_spec HP HQ Hne. cbv zeta.
  unfold add. rewrite HP, HQ.
  assert (Heq : __eq__ P Q = false).
  { unfold __eq__. destruct (Z.eqb_spec (_x P) (_x Q)); [contradiction|reflexivity]. }
  rewrite Heq. destruct (Z.eqb_spec (_x P) (_x Q)); [contradiction|].
  destruct (inverse_nonzero (_x Q - _x P)) as [-> Hi]; [apply diff_nonzero; lia|].
  cbn [bind]. rewrite while_negative_add_p_fuel. cbn [of_loop bind].
  split; [reflexivity|]. split; [exact Hi|]. split.
  - match goal with |- context [?v <? 0] => destruct (Z.ltb_spec v 0) end;
      [apply fe_mod|reflexivity].
  - apply reduced_x_range; try lia. apply Z.mod_pos_bound. lia.
Qed.

(** X6: [add] is commutative on points in range: both orders return, and return
    equal points. *)
Theorem add_commutative (P Q : EccPoint) :
  in_range P = true -> in_range Q = true ->
  exists R1 R2 : EccPoint,
    add P Q = Ok R1 /\ add Q P = Ok R2 /\ __eq__ R1 R2 = true.
Proof.
  intros HP HQ.
  destruct (is_point_at_infinity P) eqn:EP; destruct (is_point_at_infinity Q) eqn:EQ.
  - exists (copy Q), (copy P). unfold add. rewrite EP, EQ. repeat split.
    unfold is_point_at_infinity in EP, EQ.
    apply andb_true_iff in EP as [E1%Z.eqb_eq E2%Z.eqb_eq].
    apply andb_true_iff in EQ as [E3%Z.eqb_eq E4%Z.eqb_eq].
    unfold __eq__, copy. cbn [_x _y EccPoint_init]. now rewrite E1, E2, E3, E4.
  - exists (copy Q), (copy Q). unfold add. rewrite EP, EQ. repeat split.
    apply __eq___refl.
  - exists (copy P), (copy P). unfold add. rewrite EP, EQ. repeat split.
    apply __eq___refl.
  - destruct (__eq__ P Q) eqn:Eeq.
    + destruct (double_range P HP) as (R & HR & _). exists R, R.
      assert (Eqp : __eq__ Q P = true) by (now rewrite __eq___sym).
      unfold add. rewrite EP, EQ, Eeq, Eqp.
      unfold __eq__ in Eeq. apply andb_true_iff in Eeq as [E1%Z.eqb_eq E2%Z.eqb_eq].
      rewrite <- (double_ext P Q E1 E2). repeat split; trivial.
      apply __eq___refl.
    + destruct (Z.eqb_spec (_x P) (_x Q)) as [E|E].
      * exists point_at_infinity, point_at_infinity.
        assert (Eqp : __eq__ Q P = false) by (now rewrite __eq___sym).
        unfold add. rewrite EP, EQ, Eeq, Eqp, E, Z.eqb_refl. repeat split.
      * destruct (add_chord P Q HP HQ EP EQ E) as (H1 & Hi & Hx1 & _).
        destruct (add_chord Q P HQ HP EQ EP (not_eq_sym E)) as (H2 & Hj & Hx2 & _).
        cbv zeta in *. eexists. eexists. split; [exact H1|]. split; [exact H2|].
        set (i := Z.invmod (_x Q - _x P) _curve.p) in *.
        set (j := Z.invmod (_x P - _x Q) _curve.p) in *.
        apply fe_inverse in Hi, Hj. rewrite fe_sub in Hi, Hj.
        assert (Hc : ((_y Q - _y P) * i) mod _curve.p = ((_y P - _y Q) * j) mod _curve.p).
        { apply fe_eq. rewrite !fe_mul, !fe_sub.
          apply (Kernel.chord_slope_sym_p (fe (_x P)) (fe (_y P)) (fe (_x Q)) (fe (_y Q))); assumption. }
        rewrite <- Hc in *. clear Hc Hj j.
        set (c := ((_y Q - _y P) * i) mod _curve.p) in *.
        assert (Hv : c ^ 2 mod _curve.p - _x Q - _x P = c ^ 2 mod _curve.p - _x P - _x Q)
          by lia.
        rewrite Hv in *. clear Hv.
        set (x3 := if _ <? 0 then _ else _) in *.
        unfold __eq__. cbn [_x _y EccPoint_init]. rewrite Z.eqb_refl. cbn [andb].
        apply Z.eqb_eq. apply fe_eq. rewrite !fe_sub, !fe_mul, !fe_sub.
        unfold c. rewrite fe_mod, fe_mul, fe_sub.
        apply (Kernel.chord_y_sym_p (fe (_x P)) (fe (_y P)) (fe (_x Q)) (fe (_y Q)) (fe i) (fe x3)).
        exact Hi.
Qed.

Lemma add_commutative_witness :
  exists R1 R2 : EccPoint,
    add G Q_high = Ok R1 /\ add Q_high G = Ok R2 /\ __eq__ R1 R2 = true.
Proof. apply (add_commutative G Q_high); reflexivity. Defined.

(** ** The curve is closed under [double] and [add] *)

(** [P] satisfies [y^2 = x^3 - 3x + b] modulo [p]. *)
Definition satisfies (b : Z) (P : EccPoint) : bool :=
  ((_y P) ^ 2 - ((_x P) ^ 3 - 3 * _x P + b)) mod _curve.p =? 0.

(** A value of the curve of constant [b]: coordinates in range, and the
    sentinel or a solution of the equation. *)
Definition valid_for (b : Z) (P : EccPoint) : bool :=
  in_range P && (is_point_at_infinity P || satisfies b P).

Lemma valid_point_for (P : EccPoint) : valid_point P = valid_for curve_b P.
Proof.
  unfold valid_point, valid_for, on_curve, in_range, satisfies, is_point_at_infinity.
  destruct (Z.eqb_spec (_x P) 0) as [->|]; destruct (Z.eqb_spec (_y P) 0) as [->|];
    cbn [andb orb]; try reflexivity.
  all: now rewrite ?orb_true_r, ?andb_true_r, ?orb_false_r.
Qed.

Lemma fe_2 : fe 2 = (1 + 1)%Zmod.
Proof. change 2 with (1 + 1). now rewrite fe_add, fe_1. Qed.

Lemma fe_3 : fe 3 = (1 + 1 + 1)%Zmod.
Proof. change 3 with (1 + 1 + 1). now rewrite !fe_add, fe_1. Qed.

Ltac push_fe :=
  repeat (rewrite fe_mod || rewrite fe_sub || rewrite fe_add || rewrite fe_mul
          || rewrite Z.pow_2_r || rewrite fe_3 || rewrite fe_2 || rewrite fe_1).

Lemma satisfies_fe (b : Z) (P : EccPoint) :
  satisfies b P = true <->
  (fe (_y P) * fe (_y P)
   = fe (_x P) * fe (_x P) * fe (_x P) - (1 + 1 + 1) * fe (_x P) + fe b)%Zmod.
Proof.
  unfold satisfies. rewrite Z.eqb_eq.
  rewrite <- fe_3, <- !fe_mul, <- fe_sub, <- fe_add, fe_eq.
  replace (_y P ^ 2) with (_y P * _y P) by (now rewrite Z.pow_2_r).
  replace (_x P ^ 3) with (_x P * _x P * _x P) by ring.
  symmetry. apply Z.cong_iff_0.
Qed.

(** The tangent case of [double], in closed form. *)
Lemma double_tangent (P : EccPoint) :
  in_range P = true -> _y P <> 0 ->
  let i := Z.invmod (Z.shiftl (_y P) 1) _curve.p in
  let c := (((_x P) ^ 2 mod _curve.p * 3 - 3) * i) mod _curve.p in
  let v := c ^ 2 mod _curve.p - _x P - _x P in
  let x3 := if v <? 0 then v mod _curve.p else v in
  double P = Ok (EccPoint_init x3 (((_x P - x3) * c - _y P) mod _curve.p))
  /\ (i * (2 * _y P)) mod _curve.p = 1
  /\ fe x3 = fe v
  /\ 0 <= x3 < _curve.p.
Proof.
  intros [HPx HPy]%in_range_spec Hy. cbv zeta. unfold double.
  destruct (Z.eqb_spec (_y P) 0); [contradiction|].
  destruct (inverse_nonzero (Z.shiftl (_y P) 1)) as [-> Hi]; [apply twice_nonzero; lia|].
  cbn [bind]. rewrite while_negative_add_p_fuel. cbn [of_loop bind].
  split; [reflexivity|]. split; [|split].
  - replace (2 * _y P) with (Z.shiftl (_y P) 1); [exact Hi|].
    rewrite Z.shiftl_mul_pow2 by lia. change (2 ^ 1) with 2. lia.
  - match goal with |- context [?v <? 0] => destruct (Z.ltb_spec v 0) end;
      [apply fe_mod|reflexivity].
  - apply reduced_x_range; try lia. apply Z.mod_pos_bound. lia.
Qed.

(** [double] keeps a point on its curve. *)
Lemma double_curve (b : Z) (P : EccPoint) :
  valid_for b P = true ->
  exists R : EccPoint, double P = Ok R /\ valid_for b R = true.
Proof.
  unfold valid_for. intros [HP Hc]%andb_true_iff.
  destruct (Z.eq_dec (_y P) 0) as [Hy|Hy].
  - exists point_at_infinity. unfold double. rewrite Hy. split; reflexivity.
  - destruct (double_tangent P HP Hy) as (HD & Hi & Hx & Hr). cbv zeta in *.
    eexists. split; [exact HD|].
    assert (Hs : satisfies b P = true).
    { apply orb_true_iff in Hc as [Hinf|Hs]; [|exact Hs].
      unfold is_point_at_infinity in Hinf.
      apply andb_true_iff in Hinf as [_ E%Z.eqb_eq]. contradiction. }
    apply andb_true_iff. split.
    { apply in_range_spec. cbn [_x _y EccPoint_init]. split; [exact Hr|].
      apply Z.mod_pos_bound. pose proof p_pos. lia. }
    apply orb_true_iff. right. apply satisfies_fe. apply satisfies_fe in Hs.
    cbn [_x _y EccPoint_init].
    set (i := Z.invmod (Z.shiftl (_y P) 1) _curve.p) in *.
    apply fe_inverse in Hi. rewrite fe_mul, fe_2 in Hi.
    set (c := (_ * i) mod _curve.p) in *.
    set (x3 := if _ <? 0 then _ else _) in *.
    push_fe. rewrite Hx. push_fe. unfold c. push_fe.
    exact (Kernel.tangent_on_curve_p (fe b) (fe (_x P)) (fe (_y P)) (fe i) Hs Hi).
Qed.

(** [add] keeps two points of one curve on that curve. *)
Lemma add_curve (b : Z) (P Q : EccPoint) :
  valid_for b P = true -> valid_for b Q = true ->
  exists R : EccPoint, add P Q = Ok R /\ valid_for b R = true.
Proof.
  intros HvP HvQ.
  destruct (is_point_at_infinity P) eqn:EP;
    [exists (copy Q); unfold add; rewrite EP; split; [reflexivity|exact HvQ]|].
  destruct (is_point_at_infinity Q) eqn:EQ;
    [exists (copy P); unfold add; rewrite EP, EQ; split; [reflexivity|exact HvP]|].
  destruct (__eq__ P Q) eqn:Eeq.
  { unfold add. rewrite EP, EQ, Eeq. now apply double_curve. }
  destruct (Z.eqb_spec (_x P) (_x Q)) as [E|E].
  { exists point_at_infinity. unfold add. rewrite EP, EQ, Eeq, E, Z.eqb_refl.
    split; reflexivity. }
  unfold valid_for in HvP, HvQ. rewrite EP in HvP. rewrite EQ in HvQ.
  apply andb_true_iff in HvP as [HP HsP]. apply andb_true_iff in HvQ as [HQ HsQ].
  cbn [orb] in HsP, HsQ.
  destruct (add_chord P Q HP HQ EP EQ E) as (HA & Hi & Hx & Hr). cbv zeta in *.
  eexists. split; [exact HA|]. unfold valid_for. apply andb_true_iff. split.
  { apply in_range_spec. cbn [_x _y EccPoint_init]. split; [exact Hr|].
    apply Z.mod_pos_bound. pose proof p_pos. lia. }
  apply orb_true_iff. right. apply satisfies_fe.
  apply satisfies_fe in HsP, HsQ. cbn [_x _y EccPoint_init].
  set (i := Z.invmod (_x Q - _x P) _curve.p) in *.
  apply fe_inverse in Hi. rewrite fe_sub in Hi.
  set (c := (_ * i) mod _curve.p) in *.
  set (x3 := if _ <? 0 then _ else _) in *.
  push_fe. rewrite Hx. push_fe. unfold c. push_fe.
  exact (Kernel.chord_on_curve_p (fe b) (fe (_x P)) (fe (_y P)) (fe (_x Q)) (fe (_y Q)) (fe i)
           HsP HsQ Hi).
Qed.

(** X7: [double] and [add] keep the points of a curve [y^2 = x^3 - 3x + b] on
    it, whatever the constant [b] is: on valid values of one curve they do
    not raise, and the result is in range and is the point at infinity or a
    solution of the same equation. *)
Theorem curve_closed (b : Z) (P Q : EccPoint) :
  valid_for b P = true -> valid_for b Q = true ->
  (exists R : EccPoint, double P = Ok R /\ valid_for b R = true)
  /\ (exists R : EccPoint, add P Q = Ok R /\ valid_for b R = true).
Proof. intros HP HQ. split; [now apply double_curve|now apply add_curve]. Qed.

Lemma curve_closed_witness :
  (exists R : EccPoint, double G = Ok R /\ valid_for curve_b R = true)
  /\ (exists R : EccPoint, add G Q_high = Ok R /\ valid_for curve_b R = true).
Proof. apply (curve_closed curve_b G Q_high); vm_compute; reflexivity. Defined.

(** ** The recoding of the scalar *)

(** The number that a list of digits stands for, least significant digit
    first, as the recoding loop appends them. *)
Fixpoint naf_value (naf : list Z) : Z :=
  match naf with
  | [] => 0
  | d :: naf' => d + 2 * naf_value naf'
  end.

(** A digit of the recoding: zero, or an odd number of [-7 .. 7]. *)
Definition naf_digit_ok (d : Z) : bool :=
  (d =? 0) || ((-7 <=? d) && (d <=? 7) && Z.odd d).

Lemma naf_value_app (l : list Z) (d : Z) :
  naf_value (l ++ [d]) = naf_value l + 2 ^ Z.of_nat (List.length l) * d.
Proof.
  induction l as [|a l IH].
  - cbn [naf_value app List.length]. change (Z.of_nat 0) with 0. rewrite Z.pow_0_r. lia.
  - cbn [naf_value app List.length]. rewrite IH, Nat2Z.inj_succ, Z.pow_succ_r by lia. lia.
Qed.

Lemma naf_digit_ok_spec (s : Z) : naf_digit_ok (naf_digit s) = true.
Proof.
  unfold naf_digit_ok.
  destruct (naf_digit_spec s) as [[_ ->]|(_ & _ & Hr & Hodd)]; [reflexivity|].
  apply orb_true_iff. right. rewrite !andb_true_iff, !Z.leb_le.
  repeat split; try lia. rewrite Zodd_mod. now apply Z.eqb_eq.
Qed.

(** What is left after a digit is even and not negative, and half of it
    goes to the next turn. *)
Lemma naf_rest (s : Z) :
  0 < s -> s = naf_digit s + 2 * Z.shiftr (s - naf_digit s) 1
           /\ 0 <= Z.shiftr (s - naf_digit s) 1.
Proof.
  intros Hs. rewrite Z.shiftr_div_pow2 by lia. change (2 ^ 1) with 2.
  assert (He : (s - naf_digit s) mod 2 = 0 /\ 0 <= s - naf_digit s).
  { destruct (naf_digit_spec s) as [[He ->]|(Ho & H16 & Hr & _)].
    - rewrite Z.sub_0_r. lia.
    - split.
      + apply Z.mod_divide in H16; [|lia]. destruct H16 as [c Hc].
        rewrite Hc. replace (c * 16) with (c * 8 * 2) by lia. apply Z.mod_mul. lia.
      + apply Z.mod_divide in H16; [|lia]. destruct H16 as [c Hc]. lia. }
  destruct He as [He Hn]. split.
  - pose proof (Z.div_mod (s - naf_digit s) 2 ltac:(lia)). lia.
  - apply Z.div_pos; lia.
Qed.

Lemma naf_loop_value (fuel : nat) :
  forall (s : Z) (acc l : list Z),
    0 <= s -> naf_loop fuel s acc = Some l ->
    naf_value l = naf_value acc + 2 ^ Z.of_nat (List.length acc) * s
    /\ (forallb naf_digit_ok acc = true -> forallb naf_digit_ok l = true).
Proof.
  induction fuel as [|fuel IH]; intros s acc l Hs Hl.
  - simpl in Hl. destruct (Z.gtb_spec s 0); [discriminate|].
    injection Hl as <-. assert (s = 0) by lia. subst s. split; [lia|trivial].
  - destruct (Z_le_gt_dec s 0) as [H0|H0].
    + simpl in Hl. destruct (Z.gtb_spec s 0); [lia|].
      injection Hl as <-. assert (s = 0) by lia. subst s. split; [lia|trivial].
    + rewrite naf_loop_step in Hl by lia.
      destruct (naf_rest s ltac:(lia)) as [Hd Hr].
      apply IH in Hl; [|exact Hr]. destruct Hl as [Hv Hok]. split.
      * rewrite Hv, naf_value_app, length_app. cbn [List.length].
        rewrite Nat2Z.inj_add. change (Z.of_nat 1) with 1.
        rewrite Z.pow_add_r by lia. change (2 ^ 1) with 2.
        set (n := 2 ^ Z.of_nat (List.length acc)).
        set (r := Z.shiftr (s - naf_digit s) 1) in *.
        rewrite Hd at 2. ring.
      * intros Hacc. apply Hok. rewrite forallb_app, Hacc. cbn.
        now rewrite naf_digit_ok_spec.
Qed.

(** X8: The recoding loop ends for every scalar that is not negative; its digits
    stand for the scalar, and each of them is zero or an odd number of
    [-7 .. 7], an index of the table of [multiply]. *)
Theorem naf_recoding (k : Z) :
  0 <= k ->
  exists naf : list Z,
    naf_loop (naf_fuel k) k [] = Some naf
    /\ naf_value naf = k
    /\ forallb naf_digit_ok naf = true.
Proof.
  intros Hk. destruct (naf_loop_fuel k) as [naf Hn]. exists naf.
  split; [exact Hn|]. apply naf_loop_value in Hn; [|exact Hk].
  destruct Hn as [Hv Hok]. split; [|now apply Hok].
  rewrite Hv. cbn [naf_value List.length]. change (Z.of_nat 0) with 0.
  rewrite Z.pow_0_r. lia.
Qed.

Lemma naf_recoding_witness :
  exists naf : list Z,
    naf_loop (naf_fuel 2023) 2023 [] = Some naf
    /\ naf_value naf = 2023
    /\ forallb naf_digit_ok naf = true.
Proof. apply (naf_recoding 2023). lia. Defined.

(** ** The table of [multiply] and later calls *)

(** What [multiply] leaves in [self]: nothing new, or the table it has
    built because there was none. *)
Lemma multiply_self_table (P : EccPoint) (k : Z) :
  snd (multiply P k) = P
  \/ exists t, _precomp P = None /\ build_precomp P = Ok t
               /\ snd (multiply P k) = set_precomp P t.
Proof.
  unfold multiply.
  destruct (k <? 0); [now left|].
  destruct ((k =? 0) || is_point_at_infinity P); [now left|].
  destruct (k =? 1); [now left|].
  destruct (naf_loop (naf_fuel k) k []); [|now left].
  destruct (_precomp P) eqn:E; [now left|].
  destruct (build_precomp P) as [t| |]; [right; now exists t|now left..].
Qed.

(** X9: The table that a call of [multiply] leaves in a point does not change
    what a later call on the same object returns: with the stored table the
    outcome is the one of a call on the point as it was before. *)
Theorem multiply_cache_transparent (P : EccPoint) (k k' : Z) :
  fst (multiply (snd (multiply P k)) k') = fst (multiply P k').
Proof.
  destruct (multiply_self_table P k) as [->|(t & Hn & Ht & ->)]; [reflexivity|].
  unfold multiply.
  change (is_point_at_infinity (set_precomp P t)) with (is_point_at_infinity P).
  change (copy (set_precomp P t)) with (copy P).
  change (_precomp (set_precomp P t)) with (Some t).
  rewrite Hn, Ht.
  destruct (k' <? 0); [reflexivity|].
  destruct ((k' =? 0) || is_point_at_infinity P); [reflexivity|].
  destruct (k' =? 1); [reflexivity|].
  destruct (naf_loop (naf_fuel k') k' []); reflexivity.
Qed.

(** ** Small scalars *)

(** The table is built without an error for a point in range. *)
Lemma build_precomp_in_range (P : EccPoint) :
  in_range P = true ->
  exists d p3 p5 p7 : EccPoint,
    double P = Ok d /\ add d P = Ok p3 /\ add d p3 = Ok p5 /\ add d p5 = Ok p7
    /\ build_precomp P =
       Ok [PyInt 0; PyPoint P; PyPoint d; PyPoint p3; PyInt 0; PyPoint p5;
           PyInt 0; PyPoint p7;
           PyPoint (__neg__ p7); PyInt 0; PyPoint (__neg__ p5); PyInt 0;
           PyPoint (__neg__ p3); PyPoint (__neg__ d); PyPoint (__neg__ P)].
Proof.
  intros HP.
  destruct (double_range P HP) as (d & Hd & Hdr).
  destruct (add_range d P Hdr HP) as (p3 & H3 & H3r).
  destruct (add_range d p3 Hdr H3r) as (p5 & H5 & H5r).
  destruct (add_range d p5 Hdr H5r) as (p7 & H7 & H7r).
  exists d, p3, p5, p7. repeat split; trivial.
  rewrite build_precomp_eq, Hd. cbn [bind]. rewrite H3. cbn [bind].
  rewrite H5. cbn [bind]. rewrite H7. reflexivity.
Qed.

(** X10: On a point in range that is not the point at infinity and holds no
    table, [multiply] by two returns what [double] returns, and [multiply]
    by three a copy of the sum of the double and the point. *)
Theorem multiply_two_three (P : EccPoint) :
  in_range P = true -> is_point_at_infinity P = false -> _precomp P = None ->
  fst (multiply P 2) = double P
  /\ exists D T : EccPoint,
       double P = Ok D /\ add D P = Ok T /\ fst (multiply P 3) = Ok (copy T).
Proof.
  intros HP Hinf Hn.
  destruct (build_precomp_in_range P HP) as (d & p3 & p5 & p7 & Hd & H3 & _ & _ & Ht).
  split.
  - unfold multiply. rewrite Hinf, Hn, Ht.
    change (naf_loop (naf_fuel 2) 2 []) with (Some [0; 1]).
    cbn [Z.ltb Z.eqb Z.compare Pos.compare Pos.compare_cont orb rev app fst].
    cbn [multiply_loop].
    change (double point_at_infinity) with (Ok point_at_infinity).
    cbn [bind]. change (negb (1 =? 0)) with true. change (negb (0 =? 0)) with false.
    cbv iota. change (py_index _ 1) with (@Ok pyobj (PyPoint P)). cbn [bind py_add].
    change (add point_at_infinity P) with (Ok (copy P)). cbn [bind].
    rewrite (double_ext (copy P) P eq_refl eq_refl), Hd. reflexivity.
  - exists d, p3. split; [exact Hd|]. split; [exact H3|].
    unfold multiply. rewrite Hinf, Hn, Ht.
    change (naf_loop (naf_fuel 3) 3 []) with (Some [3]).
    cbn [Z.ltb Z.eqb Z.compare Pos.compare Pos.compare_cont orb rev app fst].
    cbn [multiply_loop].
    change (double point_at_infinity) with (Ok point_at_infinity).
    cbn [bind]. change (negb (3 =? 0)) with true.
    cbv iota. change (py_index _ 3) with (@Ok pyobj (PyPoint p3)). cbn [bind py_add].
    reflexivity.
Qed.

Lemma multiply_two_three_witness :
  fst (multiply G 2) = double G
  /\ exists D T : EccPoint,
       double G = Ok D /\ add D G = Ok T /\ fst (multiply G 3) = Ok (copy T).
Proof. apply (multiply_two_three G); reflexivity. Defined.

(** ** Points in range that are not on the curve *)

Definition no_inverse : exn := ValueError "No inverse value can be computed".

(** X11: The range of the coordinates is not an invariant of [multiply] by
    itself.  For a point [(x, 0)] with [0 < x < p], in range but with a
    vertical tangent, the table holds the opposite [(x, p)], out of range:
    [multiply] by 15 returns it, and [multiply] by 30 goes on to double it
    and raises, as [2 * p] has no inverse modulo [p]. *)
Theorem multiply_vertical_tangent (x : Z) :
  0 < x < _curve.p ->
  in_range (EccPoint_init x 0) = true
  /\ fst (multiply (EccPoint_init x 0) 15) = Ok (EccPoint_init x _curve.p)
  /\ in_range (EccPoint_init x _curve.p) = false
  /\ fst (multiply (EccPoint_init x 0) 30) = Raise no_inverse.
Proof.
  intros Hx. set (P := EccPoint_init x 0). set (N := EccPoint_init x _curve.p).
  assert (Hinf : is_point_at_infinity P = false).
  { unfold is_point_at_infinity, P. cbn [_x _y EccPoint_init].
    destruct (Z.eqb_spec x 0); [lia|reflexivity]. }
  assert (HinfN : is_point_at_infinity N = false).
  { unfold is_point_at_infinity, N. cbn [_x _y EccPoint_init].
    destruct (Z.eqb_spec x 0); [lia|reflexivity]. }
  assert (Hneg : __neg__ P = N).
  { unfold __neg__. rewrite Hinf. unfold P, N. cbn [_x _y EccPoint_init].
    now rewrite Z.sub_0_r. }
  assert (Hd : double P = Ok point_at_infinity) by reflexivity.
  assert (Ha : forall Q, add point_at_infinity Q = Ok (copy Q)) by reflexivity.
  assert (Hc : copy P = P) by reflexivity.
  assert (Hr : in_range P = true).
  { apply in_range_spec. unfold P. cbn [_x _y EccPoint_init]. lia. }
  assert (Ht : build_precomp P =
          Ok [PyInt 0; PyPoint P; PyPoint point_at_infinity; PyPoint P; PyInt 0;
              PyPoint P; PyInt 0; PyPoint P;
              PyPoint N; PyInt 0; PyPoint N; PyInt 0;
              PyPoint N; PyPoint point_at_infinity; PyPoint N]).
  { rewrite build_precomp_eq, Hd. cbn [bind]. rewrite !Ha, !Hc. cbn [bind].
    rewrite !Ha, !Hc. cbn [bind]. rewrite !Ha, !Hc. cbn [bind]. rewrite Hneg.
    reflexivity. }
  assert (HdN : double N = Raise no_inverse).
  { unfold double, N. cbn [_x _y EccPoint_init].
    change (_curve.p =? 0) with false. cbv iota.
    change (inverse (Z.shiftl _curve.p 1) _curve.p) with (@Raise Z no_inverse).
    reflexivity. }
  split; [exact Hr|]. split; [|split].
  - unfold multiply. rewrite Hinf.
    change (_precomp P) with (@None (list pyobj)). rewrite Ht.
    change (naf_loop (naf_fuel 15) 15 []) with (Some [-1; 0; 0; 0; 1]).
    cbn [Z.ltb Z.eqb Pos.eqb Z.compare Pos.compare Pos.compare_cont orb rev app fst].
    cbn [multiply_loop].
    change (negb (1 =? 0)) with true. change (negb (0 =? 0)) with false.
    change (negb (-1 =? 0)) with true. cbv iota.
    change (py_index _ 1) with (@Ok pyobj (PyPoint P)).
    change (py_index _ (-1)) with (@Ok pyobj (PyPoint N)).
    repeat first [ progress (change (double point_at_infinity) with (Ok point_at_infinity))
                 | rewrite Hd | rewrite Ha | rewrite Hc | progress cbn [bind py_add] ].
    reflexivity.
  - unfold in_range, N. cbn [_x _y EccPoint_init]. rewrite Z.ltb_irrefl.
    now rewrite andb_false_r.
  - unfold multiply. rewrite Hinf.
    change (_precomp P) with (@None (list pyobj)). rewrite Ht.
    change (naf_loop (naf_fuel 30) 30 []) with (Some [0; -1; 0; 0; 0; 1]).
    cbn [Z.ltb Z.eqb Pos.eqb Z.compare Pos.compare Pos.compare_cont orb rev app fst].
    cbn [multiply_loop].
    change (negb (1 =? 0)) with true. change (negb (0 =? 0)) with false.
    change (negb (-1 =? 0)) with true. cbv iota.
    change (py_index _ 1) with (@Ok pyobj (PyPoint P)).
    change (py_index _ (-1)) with (@Ok pyobj (PyPoint N)).
    repeat first [ progress (change (double point_at_infinity) with (Ok point_at_infinity))
                 | rewrite Hd | rewrite Ha | rewrite Hc | progress cbn [bind py_add] ].
    change (copy N) with N. rewrite HdN. reflexivity.
Qed.

Lemma multiply_vertical_tangent_witness :
  in_range (EccPoint_init 1 0) = true
  /\ fst (multiply (EccPoint_init 1 0) 15) = Ok (EccPoint_init 1 _curve.p)
  /\ in_range (EccPoint_init 1 _curve.p) = false
  /\ fst (multiply (EccPoint_init 1 0) 30) = Raise no_inverse.
Proof. apply (multiply_vertical_tangent 1). split; reflexivity. Defined.

(** ** No point of the curve has a vertical tangent

    A point of the curve with [y = 0] would have for [x] a root of
    [x^3 - 3x + b] modulo [p].  There is none: by Fermat's little theorem a
    root is also a root of [X^p - X], and the two polynomials are coprime. *)

(** [a0 + a1 X + a2 X^2], a residue modulo the cubic. *)
Definition residue : Type := Z * Z * Z.

Definition ev (r : Z) (a : residue) : Z :=
  let '(a0, a1, a2) := a in a0 + a1 * r + a2 * (r * r).

Definition mulmod (a c : residue) : residue :=
  let '(a0, a1, a2) := a in
  let '(c0, c1, c2) := c in
  ((a0 * c0 - curve_b * (a1 * c2 + a2 * c1)) mod _curve.p,
   (a0 * c1 + a1 * c0 + 3 * (a1 * c2 + a2 * c1) - curve_b * (a2 * c2)) mod _curve.p,
   (a0 * c2 + a1 * c1 + a2 * c0 + 3 * (a2 * c2)) mod _curve.p).

Fixpoint ppow (a : residue) (e : positive) : residue :=
  match e with
  | xH => a
  | xO e' => let s := ppow a e' in mulmod s s
  | xI e' => let s := ppow a e' in mulmod (mulmod s s) a
  end.

Definition cubic (r : Z) : Z := r * r * r - 3 * r + curve_b.

Lemma fe_0 : fe 0 = 0%Zmod.
Proof. apply Zmod.of_Z_0. Qed.

Lemma mulmod_ev (r : Z) (a c : residue) :
  cubic r mod _curve.p = 0 ->
  ev r (mulmod a c) mod _curve.p = (ev r a * ev r c) mod _curve.p.
Proof.
  intros Hr. destruct a as [[a0 a1] a2], c as [[c0 c1] c2].
  unfold mulmod, ev. apply fe_eq. push_fe.
  apply Kernel.mulmod_kernel_p.
  rewrite <- fe_3, <- !fe_mul, <- fe_sub, <- fe_add, <- fe_0. apply fe_eq.
  unfold cubic in Hr. rewrite Hr. reflexivity.
Qed.

Lemma mul_mod_congr (a a' c c' : Z) :
  a mod _curve.p = a' mod _curve.p -> c mod _curve.p = c' mod _curve.p ->
  (a * c) mod _curve.p = (a' * c') mod _curve.p.
Proof. intros Ha Hc. now rewrite Zmult_mod, Ha, Hc, <- Zmult_mod. Qed.

Lemma ppow_ev (r : Z) (a : residue) (e : positive) :
  cubic r mod _curve.p = 0 ->
  ev r (ppow a e) mod _curve.p = ev r a ^ Z.pos e mod _curve.p.
Proof.
  intros Hr. induction e as [e IH|e IH|]; cbn [ppow].
  - rewrite mulmod_ev by exact Hr.
    replace (ev r a ^ Z.pos e~1) with (ev r a ^ Z.pos e * ev r a ^ Z.pos e * ev r a).
    + apply mul_mod_congr; [|reflexivity].
      rewrite mulmod_ev by exact Hr. now apply mul_mod_congr.
    + rewrite Pos2Z.inj_xI. replace (2 * Z.pos e + 1) with (Z.pos e + Z.pos e + 1) by lia.
      rewrite !Z.pow_add_r, Z.pow_1_r by lia. reflexivity.
  - rewrite mulmod_ev by exact Hr.
    replace (ev r a ^ Z.pos e~0) with (ev r a ^ Z.pos e * ev r a ^ Z.pos e).
    + now apply mul_mod_congr.
    + rewrite Pos2Z.inj_xO. replace (2 * Z.pos e) with (Z.pos e + Z.pos e) by lia.
      rewrite Z.pow_add_r by lia. reflexivity.
  - now rewrite Z.pow_1_r.
Qed.

(** [X^p] modulo the cubic. *)
Definition frobenius : residue := ppow (0, 1, 0) (Z.to_pos _curve.p).

(** The same power on machine words. *)
Definition big_residue : Type := bigZ * bigZ * bigZ.

Definition to_residue (a : big_residue) : residue :=
  let '(a0, a1, a2) := a in (BigZ.to_Z a0, BigZ.to_Z a1, BigZ.to_Z a2).

Definition big_b : bigZ := BigZ.of_Z curve_b.

Definition big_mulmod (a c : big_residue) : big_residue :=
  let '(a0, a1, a2) := a in
  let '(c0, c1, c2) := c in
  ((a0 * c0 - big_b * (a1 * c2 + a2 * c1)) mod Big.p,
   (a0 * c1 + a1 * c0 + Big.c3 * (a1 * c2 + a2 * c1) - big_b * (a2 * c2)) mod Big.p,
   (a0 * c2 + a1 * c1 + a2 * c0 + Big.c3 * (a2 * c2)) mod Big.p)%bigZ.

Fixpoint big_ppow (a : big_residue) (e : positive) : big_residue :=
  match e with
  | xH => a
  | xO e' => let s := big_ppow a e' in big_mulmod s s
  | xI e' => let s := big_ppow a e' in big_mulmod (big_mulmod s s) a
  end.

Lemma big_mulmod_spec (a c : big_residue) :
  to_residue (big_mulmod a c) = mulmod (to_residue a) (to_residue c).
Proof.
  destruct a as [[a0 a1] a2], c as [[c0 c1] c2].
  unfold big_mulmod, mulmod, to_residue, big_b. big_to_Z. reflexivity.
Qed.

Lemma big_ppow_spec (a : big_residue) (e : positive) :
  to_residue (big_ppow a e) = ppow (to_residue a) e.
Proof.
  induction e as [e IH|e IH|]; cbn [big_ppow ppow];
    rewrite ?big_mulmod_spec, ?IH; reflexivity.
Qed.

Definition frobenius_residue : residue :=
  Eval vm_compute in
    to_residue (big_ppow (Big.c0, Big.c1, Big.c0) (Z.to_pos _curve.p)).

Lemma frobenius_eq : frobenius = frobenius_residue.
Proof.
  unfold frobenius. change (0, 1, 0) with (to_residue (Big.c0, Big.c1, Big.c0)).
  rewrite <- big_ppow_spec. vm_compute. reflexivity.
Qed.

(** Bezout coefficients [u] and [v] for the cubic and [X^p - X]:
    [u * cubic + v * (X^p - X) = 1] modulo [p]. *)
Definition bezout_u : Z * Z :=
  (107286402702237026811154678719514266289498743974321057492273529440068429825344,
   6389611969556882025875921584714237703390037729321797349080302270353162149340).

Definition bezout_v : residue :=
  (76626890310466861426869089647039036757962535851890885406097439786770458211455,
   74462945259064871768191128030512052509059297803194871526163573358218695456204,
   34768139465301476436978405170953382516735956999154666452188405812258086013549).

(** The coefficients of [u * cubic + v * h - 1], from degree 0 to 4, for
    [u = u0 + u1 X], [v = v0 + v1 X + v2 X^2], [h = h0 + h1 X + h2 X^2]. *)
Definition bezout_coefficients (b : Z) (u : Z * Z) (v h : residue) : list Z :=
  let '(u0, u1) := u in
  let '(v0, v1, v2) := v in
  let '(h0, h1, h2) := h in
  [u0 * b + v0 * h0 - 1;
   u1 * b - 3 * u0 + v0 * h1 + v1 * h0;
   v0 * h2 + v1 * h1 + v2 * h0 - 3 * u1;
   u0 + v1 * h2 + v2 * h1;
   u1 + v2 * h2].

(** [g - X], for a residue [g]. *)
Definition minus_X (g : residue) : residue :=
  let '(g0, g1, g2) := g in (g0, g1 - 1, g2).

Definition coprime_check (g : residue) : bool :=
  forallb (fun k => k mod _curve.p =? 0)
          (bezout_coefficients curve_b bezout_u bezout_v (minus_X g)).

Lemma coprime_check_ok : coprime_check frobenius_residue = true.
Proof. vm_compute. reflexivity. Qed.

Lemma bezout_no_root (m b r : Z) (u : Z * Z) (v h : residue) :
  1 < m ->
  forallb (fun k => k mod m =? 0) (bezout_coefficients b u v h) = true ->
  (m | r * r * r - 3 * r + b) -> (m | ev r h) -> False.
Proof.
  intros Hm Hk Hf Hh. destruct u as [u0 u1], v as [[v0 v1] v2], h as [[h0 h1] h2].
  cbn [bezout_coefficients forallb] in Hk. rewrite !andb_true_iff, !Z.eqb_eq in Hk.
  destruct Hk as (K0 & K1 & K2 & K3 & K4 & _).
  apply Z.mod_divide in K0, K1, K2, K3, K4; try lia.
  cbn [ev] in Hh.
  assert (H1 : (m | 1)).
  { destruct Hf as [qf Hf], Hh as [qh Hh], K0 as [q0 K0], K1 as [q1 K1],
      K2 as [q2 K2], K3 as [q3 K3], K4 as [q4 K4].
    exists ((u0 + u1 * r) * qf + (v0 + v1 * r + v2 * (r * r)) * qh
            - (q0 + q1 * r + q2 * (r * r) + q3 * (r * r * r) + q4 * (r * r * r * r))).
    transitivity
      ((u0 + u1 * r) * (qf * m) + (v0 + v1 * r + v2 * (r * r)) * (qh * m)
       - (q0 * m + q1 * m * r + q2 * m * (r * r) + q3 * m * (r * r * r)
          + q4 * m * (r * r * r * r))); [|ring].
    rewrite <- Hf, <- Hh, <- K0, <- K1, <- K2, <- K3, <- K4. ring. }
  apply Z.divide_1_r_nonneg in H1; lia.
Qed.

Lemma frobenius_ev (r : Z) :
  cubic r mod _curve.p = 0 -> ev r frobenius mod _curve.p = r mod _curve.p.
Proof.
  intros Hr. unfold frobenius. rewrite ppow_ev by exact Hr.
  rewrite Z2Pos.id by exact p_pos.
  replace (ev r (0, 1, 0)) with r by (cbn [ev]; ring).
  apply Z.fermat, p_prime.
Qed.

Lemma coprime_no_root (g : residue) (r : Z) :
  coprime_check g = true ->
  cubic r mod _curve.p = 0 -> ev r g mod _curve.p = r mod _curve.p -> False.
Proof.
  intros Hc Hr Hg. pose proof p_pos as Hp.
  apply (bezout_no_root _curve.p curve_b r bezout_u bezout_v (minus_X g));
    [reflexivity|exact Hc| |].
  - apply Z.mod_divide; [lia|exact Hr].
  - apply Z.mod_divide; [lia|]. apply Z.cong_iff_0 in Hg. clear Hc.
    destruct g as [[g0 g1] g2]. cbn [ev minus_X] in Hg |- *.
    rewrite <- Hg. f_equal. ring.
Qed.

(** The cubic [x^3 - 3x + b] has no root modulo [p]. *)
Lemma cubic_no_root (r : Z) : cubic r mod _curve.p <> 0.
Proof.
  intros Hr. apply (coprime_no_root frobenius_residue r coprime_check_ok Hr).
  rewrite <- frobenius_eq. now apply frobenius_ev.
Qed.

(** ** Valid points under [__neg__] and [multiply] *)

Lemma satisfies_cubic (P : EccPoint) :
  satisfies curve_b P = true ->
  (_y P * _y P - cubic (_x P)) mod _curve.p = 0.
Proof.
  unfold satisfies, cubic. rewrite Z.eqb_eq. intros H. rewrite <- H. f_equal.
  rewrite Z.pow_2_r. replace (_x P ^ 3) with (_x P * _x P * _x P) by ring. ring.
Qed.

(** The constant [b] of the equation is the one of the curve through the
    base point [_curve.G] of the module. *)
Lemma curve_b_through_G :
  curve_b = (_curve.Gy ^ 2 - (_curve.Gx ^ 3 - 3 * _curve.Gx)) mod _curve.p
  /\ valid_point G = true.
Proof. split; vm_compute; reflexivity. Qed.

(** On a valid point the branch [if self._y == 0] of [double] is taken by
    the point at infinity only. *)
Lemma valid_y_zero (P : EccPoint) :
  valid_point P = true -> _y P = 0 -> is_point_at_infinity P = true.
Proof.
  rewrite valid_point_for. unfold valid_for.
  intros [_ [H|H]%orb_true_iff]%andb_true_iff Hy; [exact H|].
  exfalso. apply satisfies_cubic in H. rewrite Hy in H.
  apply (cubic_no_root (_x P)). pose proof p_pos.
  apply Z.mod_divide in H; [|lia]. apply Z.mod_divide; [lia|].
  destruct H as [c Hc]. exists (- c). lia.
Qed.

(** The opposite of a valid point is a valid point. *)
Lemma neg_valid (P : EccPoint) :
  valid_point P = true -> valid_point (__neg__ P) = true.
Proof.
  intros HP. unfold __neg__. destruct (is_point_at_infinity P) eqn:Hinf; [reflexivity|].
  assert (Hy : _y P <> 0).
  { intros Hy. apply (valid_y_zero P HP) in Hy. congruence. }
  rewrite valid_point_for in *. unfold valid_for in *. rewrite Hinf in HP.
  apply andb_true_iff in HP as [Hr Hs]. cbn [orb] in Hs.
  apply in_range_spec in Hr as [Hx Hyr].
  apply andb_true_iff. split.
  - apply in_range_spec. cbn [_x _y EccPoint_init]. lia.
  - apply orb_true_iff. right. unfold satisfies in *. cbn [_x _y EccPoint_init].
    rewrite Z.eqb_eq in *. rewrite <- Hs. apply Z.cong_iff_0.
    rewrite !Z.pow_2_r.
    replace ((_curve.p - _y P) * (_curve.p - _y P) - (_x P ^ 3 - 3 * _x P + curve_b)
             - (_y P * _y P - (_x P ^ 3 - 3 * _x P + curve_b)))
      with ((_curve.p - 2 * _y P) * _curve.p) by ring.
    apply Z.mod_mul. pose proof p_pos. lia.
Qed.

(** X12: No valid point has a vertical tangent: on a valid point the branch
    [if self._y == 0] of [double] is taken by the point at infinity only, and
    the opposite of a valid point is a valid point, in range again. *)
Theorem __neg___valid (P : EccPoint) :
  valid_point P = true ->
  (_y P = 0 -> is_point_at_infinity P = true)
  /\ valid_point (__neg__ P) = true.
Proof. intros HP. split; [now apply valid_y_zero|now apply neg_valid]. Qed.

Lemma __neg___valid_witness :
  (_y G = 0 -> is_point_at_infinity G = true)
  /\ valid_point (__neg__ G) = true.
Proof. apply (__neg___valid G). vm_compute. reflexivity. Defined.

(** The table that a point holds, if it holds one, is the table of its
    coordinates, as an earlier call of [multiply] leaves it. *)
Definition cache_ok (P : EccPoint) : Prop :=
  match _precomp P with
  | None => True
  | Some t => build_precomp (copy P) = Ok t
  end.

(** The entry of the table for a digit is a valid point. *)
Definition entry_ok (t : list pyobj) (d : Z) : Prop :=
  exists E : EccPoint, py_index t d = Ok (PyPoint E) /\ valid_point E = true.

Lemma odd_digit_cases (d : Z) :
  naf_digit_ok d = true -> d <> 0 -> In d [-7; -5; -3; -1; 1; 3; 5; 7].
Proof.
  unfold naf_digit_ok. intros H Hd.
  apply orb_true_iff in H as [H%Z.eqb_eq|H]; [contradiction|].
  rewrite !andb_true_iff, !Z.leb_le in H. destruct H as [[Hl Hu] Ho].
  assert (Hc : d = -7 \/ d = -6 \/ d = -5 \/ d = -4 \/ d = -3 \/ d = -2 \/ d = -1
               \/ d = 0 \/ d = 1 \/ d = 2 \/ d = 3 \/ d = 4 \/ d = 5 \/ d = 6 \/ d = 7)
    by lia.
  cbn [In].
  repeat (destruct Hc as [->|Hc]; [first [discriminate Ho | tauto]|]).
  subst d. tauto.
Qed.

Lemma double_valid (P : EccPoint) :
  valid_point P = true -> exists R, double P = Ok R /\ valid_point R = true.
Proof.
  rewrite valid_point_for. intros H.
  destruct (double_curve curve_b P H) as (R & HR & Hv).
  exists R. now rewrite valid_point_for.
Qed.

Lemma add_valid (P Q : EccPoint) :
  valid_point P = true -> valid_point Q = true ->
  exists R, add P Q = Ok R /\ valid_point R = true.
Proof.
  rewrite !valid_point_for. intros HP HQ.
  destruct (add_curve curve_b P Q HP HQ) as (R & HR & Hv).
  exists R. now rewrite valid_point_for.
Qed.

(** The table of a valid point is built without an error, and holds a
    valid point for every digit of the recoding that is not zero. *)
Lemma build_precomp_valid (P : EccPoint) :
  valid_point P = true ->
  exists t, build_precomp P = Ok t
            /\ forall d, naf_digit_ok d = true -> d <> 0 -> entry_ok t d.
Proof.
  intros HP.
  destruct (double_valid P HP) as (d2 & Hd & Hdv).
  destruct (add_valid d2 P Hdv HP) as (p3 & H3 & H3v).
  destruct (add_valid d2 p3 Hdv H3v) as (p5 & H5 & H5v).
  destruct (add_valid d2 p5 Hdv H5v) as (p7 & H7 & H7v).
  eexists. split.
  - rewrite build_precomp_eq, Hd. cbn [bind]. rewrite H3. cbn [bind].
    rewrite H5. cbn [bind]. rewrite H7. reflexivity.
  - intros d Hok Hnz. apply odd_digit_cases in Hok; [|exact Hnz]. cbn [In] in Hok.
    unfold entry_ok.
    repeat (destruct Hok as [<-|Hok];
            [eexists; split; [reflexivity|now (try apply neg_valid)]|]).
    contradiction.
Qed.

Lemma multiply_loop_valid (t : list pyobj) (naf : list Z) :
  (forall d, naf_digit_ok d = true -> d <> 0 -> entry_ok t d) ->
  forallb naf_digit_ok naf = true ->
  forall R0, valid_point R0 = true ->
    exists R, multiply_loop t naf R0 = Ok R /\ valid_point R = true.
Proof.
  intros Ht. induction naf as [|d naf IH]; intros Hn R0 HR0.
  - exists R0. split; [reflexivity|exact HR0].
  - cbn [forallb] in Hn. apply andb_true_iff in Hn as [Hd Hn].
    cbn [multiply_loop]. destruct (double_valid R0 HR0) as (R1 & H1 & H1v).
    rewrite H1. cbn [bind]. destruct (Z.eqb_spec d 0) as [E|E]; cbn [negb bind].
    + now apply IH.
    + destruct (Ht d Hd E) as (Q & HQ & HQv). rewrite HQ. cbn [bind py_add].
      destruct (add_valid R1 Q H1v HQv) as (R2 & H2 & H2v). rewrite H2. cbn [bind].
      now apply IH.
Qed.

Lemma forallb_rev {A : Type} (f : A -> bool) (l : list A) :
  forallb f (rev l) = forallb f l.
Proof.
  induction l as [|a l IH]; [reflexivity|].
  cbn [rev forallb]. rewrite forallb_app, IH. cbn [forallb].
  rewrite andb_true_r. apply andb_comm.
Qed.

Lemma multiply_returns_valid (P : EccPoint) (k : Z) :
  valid_point P = true -> cache_ok P -> 0 <= k ->
  exists R : EccPoint, fst (multiply P k) = Ok R /\ valid_point R = true.
Proof.
  intros HP Hc Hk. unfold multiply.
  destruct (Z.ltb_spec k 0); [lia|].
  destruct ((k =? 0) || is_point_at_infinity P);
    [exists point_at_infinity; split; reflexivity|].
  destruct (k =? 1); [exists (copy P); split; [reflexivity|exact HP]|].
  destruct (naf_loop_fuel k) as [naf Hnaf]. rewrite Hnaf.
  apply naf_loop_value in Hnaf; [|exact Hk]. destruct Hnaf as [_ Hn].
  specialize (Hn eq_refl).
  rewrite <- forallb_rev in Hn.
  assert (Hinf : valid_point point_at_infinity = true) by reflexivity.
  unfold cache_ok in Hc. destruct (_precomp P) as [t|].
  - destruct (build_precomp_valid (copy P) HP) as (t' & Ht' & Hok).
    rewrite Hc in Ht'. injection Ht' as <-.
    destruct (multiply_loop_valid t (rev naf) Hok Hn _ Hinf) as (R & HR & HRv).
    exists R. now split.
  - destruct (build_precomp_valid P HP) as (t & -> & Hok).
    destruct (multiply_loop_valid t (rev naf) Hok Hn _ Hinf) as (R & HR & HRv).
    exists R. now split.
Qed.

(** X13: On a valid point, with no table or the table of an earlier call,
    [multiply] by a scalar that is not negative does not raise, and returns a
    valid point: coordinates in range, the point at infinity or a point of
    the curve. *)
Theorem multiply_valid (P : EccPoint) (k : Z) :
  valid_point P = true -> cache_ok P -> 0 <= k ->
  exists R : EccPoint, fst (multiply P k) = Ok R /\ valid_point R = true.
Proof. exact (multiply_returns_valid P k). Qed.

Lemma multiply_valid_witness :
  exists R : EccPoint, fst (multiply G 2023) = Ok R /\ valid_point R = true.
Proof. apply (multiply_valid G 2023); [vm_compute; reflexivity|exact I|lia]. Defined.

(** ** Keys *)

(** The components that [EccKey.__init__] accepts next to the curve name:
    a private scalar of [1 .. order - 1], with or without a point, or a point
    alone. *)
Definition components_ok (d : option Z) (point : option EccPoint) : Prop :=
  match d with
  | Some v => 1 <= v < _curve.order
  | None => point <> None
  end.

(** X14: [EccKey.__init__] returns exactly for the curve name ["P-256"] and
    acceptable components, and the key then holds the three arguments as
    they are: the point is stored without a look at its coordinates, and
    without a comparison with the private scalar.  Another curve name is
    refused first, whatever the components are. *)
Theorem EccKey_init_accepts (c : option string) (d : option Z) (pt : option EccPoint) :
  (c = Some "P-256"%string /\ components_ok d pt <->
   EccKey_init c d pt = Ok (mkEccKey c d pt))
  /\ (forall K : EccKey, EccKey_init c d pt = Ok K -> K = mkEccKey c d pt)
  /\ (c <> Some "P-256"%string ->
      EccKey_init c d pt = Raise (ValueError "Unsupported curve (%s)"%string)).
Proof.
  unfold EccKey_init, components_ok.
  assert (Hc : (match c with Some c0 => String.eqb c0 "P-256"%string | None => false end) = true
               <-> c = Some "P-256"%string).
  { destruct c as [c0|]; [|split; discriminate].
    rewrite String.eqb_eq. split; [now intros ->|now intros [= ->]]. }
  destruct (match c with Some c0 => String.eqb c0 "P-256"%string | None => false end);
    cbn [negb].
  - assert (E : c = Some "P-256"%string) by now apply Hc.
    repeat split.
    + intros [_ Hd]. destruct d as [v|].
      * destruct (Z.leb_spec 1 v); [|lia]. destruct (Z.ltb_spec v _curve.order); [|lia].
        reflexivity.
      * destruct pt; [reflexivity|contradiction].
    + exact E.
    + destruct d as [v|].
      * destruct (Z.leb_spec 1 v); destruct (Z.ltb_spec v _curve.order);
          cbn [andb negb] in H; try discriminate. lia.
      * destruct pt; [discriminate|discriminate].
    + intros K. destruct d as [v|].
      * destruct (negb _); [discriminate|now intros [= <-]].
      * destruct pt; [now intros [= <-]|discriminate].
    + intros Hne. contradiction.
  - repeat split.
    + intros [E _]. apply Hc in E. discriminate.
    + discriminate.
    + discriminate.
    + discriminate.
Qed.

(** What an access to [pointQ] leaves in the key. *)
Lemma pointQ_keeps (K K1 : EccKey) (G0 G1 Q : EccPoint) :
  pointQ K G0 = (Ok Q, K1, G1) ->
  _point K1 = Some Q /\ _d K1 = _d K /\ curve K1 = curve K.
Proof.
  unfold pointQ. destruct (_point K) as [pt|] eqn:EP.
  - intros [= <- <- <-]. repeat split; try assumption.
  - destruct (_d K) as [dv|] eqn:ED; [|discriminate].
    destruct (multiply G0 dv) as [[pt|e|] G']; [|discriminate..].
    intros [= <- <- <-]. cbn [_point set_point]. repeat split; try assumption.
Qed.

(** X15: The second access to [pointQ] returns the point of the first one and
    changes nothing: the point is stored in the key, the private scalar and
    the curve name stay, and [_curve.G] is not multiplied again. *)
Theorem pointQ_cached (K K1 : EccKey) (G0 G1 Q : EccPoint) :
  pointQ K G0 = (Ok Q, K1, G1) ->
  pointQ K1 G1 = (Ok Q, K1, G1)
  /\ _point K1 = Some Q /\ _d K1 = _d K /\ curve K1 = curve K.
Proof.
  unfold pointQ. destruct (_point K) as [pt|] eqn:EP.
  - intros [= <- <- <-]. rewrite EP. repeat split; try assumption.
  - destruct (_d K) as [dv|] eqn:ED; [|discriminate].
    destruct (multiply G0 dv) as [[pt|e|] G']; [|discriminate..].
    intros [= <- <- <-]. cbn [_point set_point]. repeat split; try assumption.
Qed.

(** A private key with the scalar [1], before and after its point is
    computed. *)
Definition K_one : EccKey := mkEccKey (Some "P-256"%string) (Some 1) None.
Definition K_one_Q : EccKey := mkEccKey (Some "P-256"%string) (Some 1) (Some (copy G)).

Lemma pointQ_cached_witness :
  pointQ K_one_Q G = (Ok (copy G), K_one_Q, G)
  /\ _point K_one_Q = Some (copy G) /\ _d K_one_Q = _d K_one
  /\ curve K_one_Q = curve K_one.
Proof. apply (pointQ_cached K_one K_one_Q G G (copy G)). reflexivity. Defined.

(** X16: The key that [public_key] returns has no private scalar: it holds the
    name of the curve and the point of the key it comes from, its [d]
    property raises, and the key it comes from keeps its private scalar. *)
Theorem public_key_public (K K' K1 : EccKey) (G0 G1 : EccPoint) :
  public_key K G0 = (Ok K', K1, G1) ->
  has_private K' = false
  /\ d K' = Raise missing_private_key
  /\ curve K' = Some "P-256"%string
  /\ (exists Q, pointQ K G0 = (Ok Q, K1, G1) /\ _point K' = Some Q)
  /\ _d K1 = _d K.
Proof.
  unfold public_key. destruct (pointQ K G0) as [[q K2] G2] eqn:EQ.
  destruct q as [Q|e|]; cbn [bind]; [|discriminate..].
  intros [= <- <- <-]. cbn [has_private d _d curve _point].
  repeat split.
  - exists Q. split; reflexivity.
  - now destruct (pointQ_keeps K K2 G0 G2 Q EQ) as (_ & H & _).
Qed.

Lemma public_key_public_witness :
  has_private (mkEccKey (Some "P-256"%string) None (Some (copy G))) = false
  /\ d (mkEccKey (Some "P-256"%string) None (Some (copy G)))
     = Raise missing_private_key
  /\ curve (mkEccKey (Some "P-256"%string) None (Some (copy G))) = Some "P-256"%string
  /\ (exists Q, pointQ K_one G = (Ok Q, K_one_Q, G)
                /\ _point (mkEccKey (Some "P-256"%string) None (Some (copy G))) = Some Q)
  /\ _d K_one_Q = _d K_one.
Proof. apply (public_key_public K_one _ K_one_Q G G). reflexivity. Defined.

(** X17: [_sign] checks the nonce first and fails its assertion outside
    [1 .. order - 1].  When it returns a pair, the key has a private scalar
    and both numbers of the pair are reduced modulo [order]. *)
Theorem _sign_reduced (K : EccKey) (z k : Z) (G0 : EccPoint) :
  (~ 0 < k < _curve.order -> fst (_sign K z k G0) = Raise AssertionError)
  /\ (forall r s : Z, fst (_sign K z k G0) = Ok (r, s) ->
      has_private K = true /\ 0 < k < _curve.order
      /\ 0 <= r < _curve.order /\ 0 <= s < _curve.order).
Proof.
  assert (Ho : 0 < _curve.order) by reflexivity.
  unfold _sign. split.
  - intros Hk. destruct (Z.ltb_spec 0 k); destruct (Z.ltb_spec k _curve.order);
      cbn [andb negb]; try reflexivity. lia.
  - intros r s. destruct (Z.ltb_spec 0 k); destruct (Z.ltb_spec k _curve.order);
      cbn [andb negb fst]; try discriminate.
    destruct (multiply G0 k) as [[pt|e|] G']; cbn [fst bind]; try discriminate.
    destruct (x pt) as [xv|e|]; cbn [bind]; try discriminate.
    destruct (inverse k _curve.order) as [i|e|]; cbn [bind]; try discriminate.
    unfold has_private. destruct (_d K) as [dv|]; cbn [mul_d bind]; try discriminate.
    intros [= <- <-]. repeat split; try lia; apply Z.mod_pos_bound; lia.
Qed.

(** ** Keys on valid points *)

(** The object [_curve.G] as a call finds it: the base point, with no table
    or with the table of an earlier call. *)
Definition base_point_ok (G0 : EccPoint) : Prop :=
  valid_point G0 = true /\ cache_ok G0.

Lemma order_pos : 0 < _curve.order.
Proof. reflexivity. Qed.

(** X18: The public point of a private key that holds no point yet is computed
    without an error and is a valid point; [public_key] returns a key that
    holds it and no private scalar. *)
Theorem public_key_valid (dv : Z) (K : EccKey) (G0 : EccPoint) :
  _d K = Some dv -> _point K = None -> 0 <= dv ->
  base_point_ok G0 ->
  exists (Q : EccPoint) (K1 : EccKey) (G1 : EccPoint),
    valid_point Q = true
    /\ pointQ K G0 = (Ok Q, K1, G1)
    /\ public_key K G0 = (Ok (mkEccKey (Some "P-256"%string) None (Some Q)), K1, G1).
Proof.
  intros Hd Hp Hdv [HG HGc].
  destruct (multiply_returns_valid G0 dv HG HGc Hdv) as (Q & HQ & HQv).
  unfold public_key, pointQ. rewrite Hp, Hd.
  destruct (multiply G0 dv) as [r G1]. cbn [fst] in HQ. subst r.
  exists Q, (set_point K Q), G1. repeat split. exact HQv.
Qed.

Lemma public_key_valid_witness :
  exists (Q : EccPoint) (K1 : EccKey) (G1 : EccPoint),
    valid_point Q = true
    /\ pointQ K_one G = (Ok Q, K1, G1)
    /\ public_key K_one G = (Ok (mkEccKey (Some "P-256"%string) None (Some Q)), K1, G1).
Proof.
  apply (public_key_valid 1 K_one G); [reflexivity|reflexivity|lia|].
  split; [vm_compute; reflexivity|exact I].
Defined.

(** X19: [_verify] on a key that holds a valid point, for an [s] that has an
    inverse modulo [order]: the two scalar products and their sum [R] are
    computed without an error, [R] is a valid point, and the call raises the
    error of the [x] property when [R] is the point at infinity and returns
    the comparison of [R.x] with [r] otherwise.  No other error comes out. *)
Theorem _verify_total (K : EccKey) (Q G0 : EccPoint) (z r s sinv : Z) :
  _point K = Some Q -> valid_point Q = true -> cache_ok Q ->
  base_point_ok G0 ->
  inverse s _curve.order = Ok sinv ->
  exists point1 point2 R : EccPoint,
    fst (multiply G0 ((sinv * z) mod _curve.order)) = Ok point1
    /\ fst (multiply Q ((sinv * r) mod _curve.order)) = Ok point2
    /\ add point1 point2 = Ok R
    /\ valid_point R = true
    /\ fst (fst (_verify K z (r, s) G0))
       = if is_point_at_infinity R then Raise (ValueError "Point at infinity")
         else Ok (_x R =? r).
Proof.
  intros HQ HQv HQc [HG HGc] Hs. pose proof order_pos as Ho.
  assert (H1 : 0 <= (sinv * z) mod _curve.order) by (apply Z.mod_pos_bound; lia).
  assert (H2 : 0 <= (sinv * r) mod _curve.order) by (apply Z.mod_pos_bound; lia).
  destruct (multiply_returns_valid G0 _ HG HGc H1) as (P1 & HP1 & HP1v).
  destruct (multiply_returns_valid Q _ HQv HQc H2) as (P2 & HP2 & HP2v).
  destruct (add_valid P1 P2 HP1v HP2v) as (R & HR & HRv).
  exists P1, P2, R. repeat split; trivial.
  unfold _verify. cbn [fst snd]. rewrite Hs.
  destruct (multiply G0 _) as [r1 G1]. cbn [fst] in HP1. subst r1.
  unfold pointQ. rewrite HQ.
  destruct (multiply Q _) as [r2 Q']. cbn [fst] in HP2. subst r2.
  cbn [bind fst]. rewrite HR. cbn [bind]. unfold x.
  destruct (is_point_at_infinity R); reflexivity.
Qed.

Lemma _verify_total_witness :
  exists point1 point2 R : EccPoint,
    fst (multiply G ((Z.invmod 3 _curve.order * 5) mod _curve.order)) = Ok point1
    /\ fst (multiply Q_high ((Z.invmod 3 _curve.order * 7) mod _curve.order))
       = Ok point2
    /\ add point1 point2 = Ok R
    /\ valid_point R = true
    /\ fst (fst (_verify K_high 5 (7, 3) G))
       = if is_point_at_infinity R then Raise (ValueError "Point at infinity")
         else Ok (_x R =? 7).
Proof.
  apply (_verify_total K_high Q_high G 5 7 3 (Z.invmod 3 _curve.order));
    [reflexivity|vm_compute; reflexivity|exact I| |vm_compute; reflexivity].
  split; [vm_compute; reflexivity|exact I].
Defined.

(** * Addition and the range of the coordinates on valid points *)

Lemma valid_point_in_range (P : EccPoint) :
  valid_point P = true -> in_range P = true.
Proof.
  rewrite valid_point_for. unfold valid_for. now intros [H _]%andb_true_iff.
Qed.

(** The chord through two points in range does not depend on the order in
    which the points are given. *)
Lemma add_chord_sym (P Q : EccPoint) :
  in_range P = true -> in_range Q = true ->
  is_point_at_infinity P = false -> is_point_at_infinity Q = false ->
  _x P <> _x Q ->
  exists R1 R2 : EccPoint,
    add P Q = Ok R1 /\ add Q P = Ok R2 /\ _x R1 = _x R2 /\ _y R1 = _y R2.
Proof.
  intros HP HQ EP EQ E.
  destruct (add_chord P Q HP HQ EP EQ E) as (H1 & Hi & _ & _).
  destruct (add_chord Q P HQ HP EQ EP (not_eq_sym E)) as (H2 & Hj & _ & _).
  cbv zeta in *. eexists. eexists. split; [exact H1|]. split; [exact H2|].
  set (i := Z.invmod (_x Q - _x P) _curve.p) in *.
  set (j := Z.invmod (_x P - _x Q) _curve.p) in *.
  apply fe_inverse in Hi, Hj. rewrite fe_sub in Hi, Hj.
  assert (Hc : ((_y Q - _y P) * i) mod _curve.p = ((_y P - _y Q) * j) mod _curve.p).
  { apply fe_eq. rewrite !fe_mul, !fe_sub.
    now apply (Kernel.chord_slope_sym_p (fe (_x P)) (fe (_y P)) (fe (_x Q)) (fe (_y Q))). }
  rewrite <- Hc. clear Hc Hj j H1 H2.
  set (c := ((_y Q - _y P) * i) mod _curve.p).
  replace (c ^ 2 mod _curve.p - _x Q - _x P) with (c ^ 2 mod _curve.p - _x P - _x Q)
    by lia.
  set (x3 := if _ <? 0 then _ else _).
  cbn [_x _y EccPoint_init]. split; [reflexivity|].
  apply fe_eq. rewrite !fe_sub, !fe_mul, !fe_sub.
  unfold c. rewrite fe_mod, fe_mul, fe_sub.
  now apply (Kernel.chord_y_sym_p (fe (_x P)) (fe (_y P)) (fe (_x Q)) (fe (_y Q))
               (fe i) (fe x3)).
Qed.

(** C7: point addition is commutative on valid points.  For every pair of
    valid points, the point at infinity, equal points and opposite points
    included, [P.add(Q)] and [Q.add(P)] both return, the two results are
    equal for [==], and they are valid points. *)
Theorem add_commutative_valid (P Q : EccPoint) :
  valid_point P = true -> valid_point Q = true ->
  exists R1 R2 : EccPoint,
    add P Q = Ok R1 /\ add Q P = Ok R2
    /\ __eq__ R1 R2 = true /\ valid_point R1 = true.
Proof.
  intros HP HQ.
  destruct (add_valid P Q HP HQ) as (R1 & H1 & H1v).
  destruct (add_valid Q P HQ HP) as (R2 & H2 & _).
  exists R1, R2. repeat split; trivial.
  apply valid_point_in_range in HP, HQ. revert H1 H2. unfold add.
  destruct (is_point_at_infinity P) eqn:EP; destruct (is_point_at_infinity Q) eqn:EQ.
  - intros [= <-] [= <-]. unfold is_point_at_infinity in EP, EQ.
    apply andb_true_iff in EP as [E1%Z.eqb_eq E2%Z.eqb_eq].
    apply andb_true_iff in EQ as [E3%Z.eqb_eq E4%Z.eqb_eq].
    unfold __eq__, copy. cbn [_x _y EccPoint_init]. now rewrite E1, E2, E3, E4.
  - intros [= <-] [= <-]. apply __eq___refl.
  - intros [= <-] [= <-]. apply __eq___refl.
  - rewrite (__eq___sym Q P). destruct (__eq__ P Q) eqn:Eeq.
    + unfold __eq__ in Eeq. apply andb_true_iff in Eeq as [E1%Z.eqb_eq E2%Z.eqb_eq].
      rewrite <- (double_ext P Q E1 E2). intros -> [= <-]. apply __eq___refl.
    + rewrite (Z.eqb_sym (_x Q)). destruct (Z.eqb_spec (_x P) (_x Q)) as [E|E].
      * intros [= <-] [= <-]. reflexivity.
      * fold (add P Q). intros H1 H2.
        destruct (add_chord_sym P Q HP HQ EP EQ E) as (S1 & S2 & A1 & A2 & Ex & Ey).
        unfold add in A1, A2. rewrite EP, EQ in A1, A2.
        rewrite (__eq___sym Q P), Eeq, (Z.eqb_sym (_x Q)) in A2. rewrite Eeq in A1.
        destruct (Z.eqb_spec (_x P) (_x Q)); [contradiction|].
        rewrite H1 in A1. rewrite H2 in A2. injection A1 as <-. injection A2 as <-.
        unfold __eq__. rewrite Ex, Ey, !Z.eqb_refl. reflexivity.
Qed.

Lemma add_commutative_valid_witness :
  exists R1 R2 : EccPoint,
    add G Q_high = Ok R1 /\ add Q_high G = Ok R2
    /\ __eq__ R1 R2 = true /\ valid_point R1 = true.
Proof. apply (add_commutative_valid G Q_high); vm_compute; reflexivity. Defined.

(** C8, as stated, fails for [multiply]: the point [(1, 0)] has its
    coordinates in range, and [multiply] by 15 returns [(1, p)], whose [y] is
    not below [p]. *)
Lemma multiply_leaves_range :
  in_range (EccPoint_init 1 0) = true
  /\ fst (multiply (EccPoint_init 1 0) 15) = Ok (EccPoint_init 1 _curve.p)
  /\ in_range (EccPoint_init 1 _curve.p) = false.
Proof. repeat split; vm_compute; reflexivity. Qed.

(** C8, amended: [double] and [add] return points with both coordinates in
    range for every input in range; [multiply] does for every valid point,
    the point at infinity or a point of the curve, that holds no table or
    the table of an earlier call, and every scalar that is not negative. *)
Theorem coordinates_in_range (P Q : EccPoint) (k : Z) :
  (in_range P = true ->
   exists R : EccPoint, double P = Ok R /\ in_range R = true)
  /\ (in_range P = true -> in_range Q = true ->
      exists R : EccPoint, add P Q = Ok R /\ in_range R = true)
  /\ (valid_point P = true -> cache_ok P -> 0 <= k ->
      exists R : EccPoint, fst (multiply P k) = Ok R /\ in_range R = true).
Proof.
  split; [apply double_range|]. split; [apply add_range|].
  intros HP Hc Hk. destruct (multiply_returns_valid P k HP Hc Hk) as (R & HR & HRv).
  exists R. split; [exact HR|now apply valid_point_in_range].
Qed.

Lemma coordinates_in_range_witness :
  (exists R : EccPoint, double G = Ok R /\ in_range R = true)
  /\ (exists R : EccPoint, add G Q_high = Ok R /\ in_range R = true)
  /\ (exists R : EccPoint, fst (multiply G 2023) = Ok R /\ in_range R = true).
Proof.
  destruct (coordinates_in_range G Q_high 2023) as (Hd & Ha & Hm).
  split; [apply Hd; reflexivity|].
  split; [apply Ha; reflexivity|].
  apply Hm; [vm_compute; reflexivity|exact I|lia].
Defined.
